(** * Electron shell: smooth rounded rectangles and preload-script converters

    A shallow embedding of
    - [shell/renderer/electron_smooth_round_rect.cc]
      ([CalculateSmoothRoundRect]), and
    - [shell/browser/preload_script.h]
      (the [gin::Converter] specialisations for [PreloadScript]),
    together with the properties stated about them.

    The geometry code computes on C++ [float].  It is embedded once, over an
    interface [FloatOps] of the operations it uses, and read in two
    arithmetics: IEEE-754 binary32 ([Binary32], exact bit-level rounding,
    the arithmetic the program runs on) and the real numbers ([Exact], the
    arithmetic in which the comments of the source derive the formulas). *)

From Stdlib Require Import ZArith Reals Lra Lia List String.
From Stdlib Require Import Floats.SpecFloat.
From stdpp Require Import base gmap strings.

Set Default Goal Selector "!".

(* ===================================================================== *)
(** * Part I: definitions for [electron_smooth_round_rect.cc]            *)
(* ===================================================================== *)

Module SmoothRoundRect.

(** ** The arithmetic used by the source *)

(** Everything the function does with a [float]: the literals it writes,
    the four arithmetic operators, unary minus, the three calls into the
    maths library, and the comparisons of its [DCHECK]s. *)
Class FloatOps (F : Type) : Type := {
  (** the literal [n.0f] *)
  fconst : Z -> F;
  fadd : F -> F -> F;
  fsub : F -> F -> F;
  fmul : F -> F -> F;
  fdiv : F -> F -> F;
  fneg : F -> F;
  fsin : F -> F;
  fcos : F -> F;
  ftan : F -> F;
  (** the value of the constant expression [std::numbers::pi / 4.0f],
      a [double], once it is stored in a [constexpr float] *)
  pi_div_4_as_float : F;
  (** [a < b] and [a <= b] as the [DCHECK]s evaluate them *)
  flt : F -> F -> Prop;
  fle : F -> F -> Prop
}.

Declare Scope float_scope.
Delimit Scope float_scope with flt.
Infix "+" := fadd : float_scope.
Infix "-" := fsub : float_scope.
Infix "*" := fmul : float_scope.
Infix "/" := fdiv : float_scope.
Notation "- x" := (fneg x) : float_scope.

Section Generic.
Context {F : Type} `{FloatOps F}.
Local Open Scope float_scope.

(** ** Skia's points and vectors ([SkPoint]; [SkVector] is the same type) *)

Record SkPoint : Type := MakePoint { fX : F; fY : F }.

Definition SkVector : Type := SkPoint.

(** [SkPoint::Make] and [SkVector::Make]. *)
Definition Make (x y : F) : SkPoint := MakePoint x y.

(** [operator+], [operator-] on two points and [operator*] by a scalar. *)
Definition padd (a b : SkPoint) : SkPoint := Make (fX a + fX b) (fY a + fY b).
Definition psub (a b : SkPoint) : SkPoint := Make (fX a - fX b) (fY a - fY b).
Definition pscale (a : SkVector) (k : F) : SkVector := Make (fX a * k) (fY a * k).

(** ** Skia's path, as the sequence of builder calls made on it *)

Inductive ArcSize : Set := kSmall_ArcSize | kLarge_ArcSize.
Inductive SkPathDirection : Set := kCW | kCCW.

Inductive PathCommand : Type :=
  | MoveTo (p : SkPoint)
  | LineTo (p : SkPoint)
  | CubicTo (p1 p2 p3 : SkPoint)
  | ArcTo (r : SkPoint) (xAxisRotate : F) (largeArc : ArcSize)
          (sweep : SkPathDirection) (xy : SkPoint)
  | Close.

Definition SkPath : Type := list PathCommand.

(** Each builder method appends one command to the path it is called on. *)
Definition moveTo (p : SkPoint) (path : SkPath) : SkPath := path ++ [MoveTo p].
Definition lineTo (p : SkPoint) (path : SkPath) : SkPath := path ++ [LineTo p].
Definition cubicTo (p1 p2 p3 : SkPoint) (path : SkPath) : SkPath :=
  path ++ [CubicTo p1 p2 p3].
Definition arcTo (r : SkPoint) (xAxisRotate : F) (largeArc : ArcSize)
    (sweep : SkPathDirection) (xy : SkPoint) (path : SkPath) : SkPath :=
  path ++ [ArcTo r xAxisRotate largeArc sweep xy].
Definition close (path : SkPath) : SkPath := path ++ [Close].

(** ** Constants and helpers of the anonymous namespace *)

Definition PI_DIV_4 : F := pi_div_4_as_float.
Definition EDGE_CURVE_POINT_RATIO : F := fconst 2 / fconst 3.

Definition MakeXPoint (x : F) : SkPoint := Make x (fconst 0).
Definition MakeYPoint (y : F) : SkPoint := Make (fconst 0) y.

(** ** The calculations of [CalculateSmoothRoundRect]

    One definition per local variable of the source, in its order. *)

Definition rounding_segment_length (radius : F) : F := radius.

Definition smoothing_rounding_segment_length (smoothness radius : F) : F :=
  (fconst 1 + smoothness) * rounding_segment_length radius.

Definition edge_connecting_offset (smoothness radius : F) : F :=
  smoothing_rounding_segment_length smoothness radius.

Definition arc_connecting_angle (smoothness : F) : F := PI_DIV_4 * smoothness.

Definition arc_connecting_vector (smoothness radius : F) : SkVector :=
  pscale (Make (fconst 1 - fsin (arc_connecting_angle smoothness))
               (fconst 1 - fcos (arc_connecting_angle smoothness)))
         radius.

Definition arc_curve_offset_from_connecting (smoothness radius : F) : F :=
  ftan (arc_connecting_angle smoothness / fconst 2)
  * fcos (arc_connecting_angle smoothness) * radius.

Definition arc_curve_offset (smoothness radius : F) : F :=
  fX (arc_connecting_vector smoothness radius)
  + arc_curve_offset_from_connecting smoothness radius.

Definition edge_curve_offset (smoothness radius : F) : F :=
  smoothing_rounding_segment_length smoothness radius
  - ((smoothing_rounding_segment_length smoothness radius
      - arc_curve_offset smoothness radius)
     * EDGE_CURVE_POINT_RATIO).

(** The five [DCHECK]s at the head of the function. *)
Definition dchecks_pass (width height smoothness radius : F) : Prop :=
  flt (fconst 0) width /\ flt (fconst 0) height /\
  flt (fconst 0) smoothness /\ fle smoothness (fconst 1) /\
  flt (fconst 0) radius.

(** ** Drawing the path *)

Definition CalculateSmoothRoundRect
    (x y width height smoothness radius : F) : SkPath :=
  let edge_connecting_offset := edge_connecting_offset smoothness radius in
  let arc_connecting_vector := arc_connecting_vector smoothness radius in
  let arc_curve_offset := arc_curve_offset smoothness radius in
  let edge_curve_offset := edge_curve_offset smoothness radius in
  let path : SkPath := [] in
  (* Upper left corner *)
  let upper_left_corner := Make x y in
  let path := moveTo (padd upper_left_corner (MakeYPoint edge_connecting_offset)) path in
  let path := cubicTo (padd upper_left_corner (MakeYPoint edge_curve_offset))
                      (padd upper_left_corner (MakeYPoint arc_curve_offset))
                      (padd upper_left_corner
                            (Make (fY arc_connecting_vector) (fX arc_connecting_vector)))
                      path in
  let path := arcTo (Make radius radius) (fconst 0) kSmall_ArcSize kCW
                    (padd upper_left_corner arc_connecting_vector) path in
  let path := cubicTo (padd upper_left_corner (MakeXPoint arc_curve_offset))
                      (padd upper_left_corner (MakeXPoint edge_curve_offset))
                      (padd upper_left_corner (MakeXPoint edge_connecting_offset))
                      path in
  (* Upper right corner *)
  let upper_right_corner := Make (x + width) y in
  let path := lineTo (psub upper_right_corner (MakeXPoint edge_connecting_offset)) path in
  let path := cubicTo (psub upper_right_corner (MakeXPoint edge_curve_offset))
                      (psub upper_right_corner (MakeXPoint arc_curve_offset))
                      (psub upper_right_corner
                            (Make (fX arc_connecting_vector) (- fY arc_connecting_vector)))
                      path in
  let path := arcTo (Make radius radius) (fconst 0) kSmall_ArcSize kCW
                    (psub upper_right_corner
                          (Make (fY arc_connecting_vector) (- fX arc_connecting_vector)))
                    path in
  let path := cubicTo (padd upper_right_corner (MakeYPoint arc_curve_offset))
                      (padd upper_right_corner (MakeYPoint edge_curve_offset))
                      (padd upper_right_corner (MakeYPoint edge_connecting_offset))
                      path in
  (* Bottom right corner *)
  let bottom_right_corner := Make (x + width) (y + height) in
  let path := lineTo (psub bottom_right_corner (MakeYPoint edge_connecting_offset)) path in
  let path := cubicTo (psub bottom_right_corner (MakeYPoint edge_curve_offset))
                      (psub bottom_right_corner (MakeYPoint arc_curve_offset))
                      (psub bottom_right_corner
                            (Make (fY arc_connecting_vector) (fX arc_connecting_vector)))
                      path in
  let path := arcTo (Make radius radius) (fconst 0) kSmall_ArcSize kCW
                    (psub bottom_right_corner arc_connecting_vector) path in
  let path := cubicTo (psub bottom_right_corner (MakeXPoint arc_curve_offset))
                      (psub bottom_right_corner (MakeXPoint edge_curve_offset))
                      (psub bottom_right_corner (MakeXPoint edge_connecting_offset))
                      path in
  (* Bottom left corner *)
  let bottom_left_corner := Make x (y + height) in
  let path := lineTo (padd bottom_left_corner (MakeXPoint edge_connecting_offset)) path in
  let path := cubicTo (padd bottom_left_corner (MakeXPoint edge_curve_offset))
                      (padd bottom_left_corner (MakeXPoint arc_curve_offset))
                      (padd bottom_left_corner
                            (Make (fX arc_connecting_vector) (- fY arc_connecting_vector)))
                      path in
  let path := arcTo (Make radius radius) (fconst 0) kSmall_ArcSize kCW
                    (padd bottom_left_corner
                          (Make (fY arc_connecting_vector) (- fX arc_connecting_vector)))
                    path in
  let path := cubicTo (psub bottom_left_corner (MakeYPoint arc_curve_offset))
                      (psub bottom_left_corner (MakeYPoint edge_curve_offset))
                      (psub bottom_left_corner (MakeYPoint edge_connecting_offset))
                      path in
  (* Done *)
  close path.

(** ** Observations on a path *)

Definition is_line (c : PathCommand) : bool :=
  match c with LineTo _ => true | _ => false end.
Definition is_cubic (c : PathCommand) : bool :=
  match c with CubicTo _ _ _ => true | _ => false end.
Definition is_arc (c : PathCommand) : bool :=
  match c with ArcTo _ _ _ _ _ => true | _ => false end.
Definition is_move (c : PathCommand) : bool :=
  match c with MoveTo _ => true | _ => false end.
Definition is_close (c : PathCommand) : bool :=
  match c with Close => true | _ => false end.

Definition count_commands (f : PathCommand -> bool) (path : SkPath) : nat :=
  List.length (List.filter f path).

(** The point a command leaves the pen at; [Close] carries none. *)
Definition end_point (c : PathCommand) : option SkPoint :=
  match c with
  | MoveTo p | LineTo p | CubicTo _ _ p | ArcTo _ _ _ _ p => Some p
  | Close => None
  end.

(** The first point of the path: the target of its leading move-to. *)
Definition first_point (path : SkPath) : option SkPoint :=
  match path with
  | MoveTo p :: _ => Some p
  | _ => None
  end.

(** The last point of the path: the point of the last command that has one. *)
Fixpoint last_point (path : SkPath) : option SkPoint :=
  match path with
  | [] => None
  | c :: rest =>
      match last_point rest with
      | Some p => Some p
      | None => end_point c
      end
  end.

(** The path ends with a [close()] call. *)
Definition ends_with_close (path : SkPath) : Prop :=
  exists body, path = body ++ [Close].

(** ** What a path draws

    The segments of a path, each with the point it starts from: a
    [close()] draws the straight segment back to the point of the last
    [moveTo].  Before any [moveTo] the pen is at the origin. *)

Inductive Segment : Type :=
  | LineSegment (from to : SkPoint)
  | CubicSegment (from control1 control2 to : SkPoint)
  | ArcSegment (from r : SkPoint) (xAxisRotate : F) (largeArc : ArcSize)
               (sweep : SkPathDirection) (to : SkPoint).

Fixpoint segments_from (start pen : SkPoint) (path : SkPath) : list Segment :=
  match path with
  | [] => []
  | MoveTo p :: rest => segments_from p p rest
  | LineTo p :: rest => LineSegment pen p :: segments_from start p rest
  | CubicTo p1 p2 p3 :: rest =>
      CubicSegment pen p1 p2 p3 :: segments_from start p3 rest
  | ArcTo r rot size dir p :: rest =>
      ArcSegment pen r rot size dir p :: segments_from start p rest
  | Close :: rest => LineSegment pen start :: segments_from start start rest
  end.

Definition segments (path : SkPath) : list Segment :=
  segments_from (Make (fconst 0) (fconst 0)) (Make (fconst 0) (fconst 0)) path.

(** ** A quarter turn about a centre

    The offset (dx, dy) from the centre becomes (-dy, dx); the two radii
    of an arc change places, its flags stay. *)

Definition quarter_turn (centre p : SkPoint) : SkPoint :=
  Make (fX centre - (fY p - fY centre)) (fY centre + (fX p - fX centre)).

Definition quarter_turn_segment (centre : SkPoint) (s : Segment) : Segment :=
  match s with
  | LineSegment a b => LineSegment (quarter_turn centre a) (quarter_turn centre b)
  | CubicSegment a c1 c2 b =>
      CubicSegment (quarter_turn centre a) (quarter_turn centre c1)
                   (quarter_turn centre c2) (quarter_turn centre b)
  | ArcSegment a r rot size dir b =>
      ArcSegment (quarter_turn centre a) (Make (fY r) (fX r)) rot size dir
                 (quarter_turn centre b)
  end.

(** The drawing is the same after a quarter turn, up to the segment the
    cycle of segments starts with. *)
Definition quarter_turn_invariant (centre : SkPoint) (path : SkPath) : Prop :=
  exists k : nat,
    quarter_turn_segment centre <$> segments path = rotate k (segments path).

(** The kind of a segment: 0 a line, 1 a cubic curve, 2 an arc. *)
Definition segment_kind (s : Segment) : nat :=
  match s with
  | LineSegment _ _ => 0
  | CubicSegment _ _ _ _ => 1
  | ArcSegment _ _ _ _ _ _ => 2
  end.

End Generic.

Arguments SkPoint F : clear implicits.
Arguments Segment F : clear implicits.
Arguments SkVector F : clear implicits.
Arguments PathCommand F : clear implicits.
Arguments SkPath F : clear implicits.

End SmoothRoundRect.

(** ** IEEE-754 binary32: the arithmetic of C++ [float] *)

Module Binary32.

Definition prec : Z := 24.
Definition emax : Z := 128.

(** A [float] is a [spec_float] of the binary32 format. *)
Definition float : Type := spec_float.

(** The literal [n.0f]: the integer [n], rounded to the format. *)
Definition of_Z (n : Z) : float := binary_normalize prec emax n 0 false.

(** The value [m * 2^e], rounded to the format. *)
Definition of_scaled (m e : Z) : float := binary_normalize prec emax m e false.

(** [std::numbers::pi], the [double] 0x400921FB54442D18. *)
Definition pi_double : spec_float := S754_finite false 7074237752028440 (-51).

(** The usual arithmetic conversions take [pi / 4.0f] to [double]. *)
Definition double_div : spec_float -> spec_float -> spec_float := SFdiv 53 1024.
Definition double_of_Z (n : Z) : spec_float := binary_normalize 53 1024 n 0 false.

(** Storing a [double] in a [float]: round its value to binary32. *)
Definition narrow (d : spec_float) : float :=
  match d with
  | S754_finite s m e => binary_round prec emax s m e
  | _ => d
  end.

(** The functions [sin], [cos] and [tan] belong to the C++ maths library,
    which is not part of the program: they are parameters of the
    arithmetic.  Called on a [float] they are taken at their [float]
    overloads. *)
Record MathLibrary : Type := {
  lib_sin : float -> float;
  lib_cos : float -> float;
  lib_tan : float -> float
}.

#[export] Instance ops (lm : MathLibrary) : SmoothRoundRect.FloatOps float := {|
  SmoothRoundRect.fconst := of_Z;
  SmoothRoundRect.fadd := SFadd prec emax;
  SmoothRoundRect.fsub := SFsub prec emax;
  SmoothRoundRect.fmul := SFmul prec emax;
  SmoothRoundRect.fdiv := SFdiv prec emax;
  SmoothRoundRect.fneg := SFopp;
  SmoothRoundRect.fsin := lib_sin lm;
  SmoothRoundRect.fcos := lib_cos lm;
  SmoothRoundRect.ftan := lib_tan lm;
  SmoothRoundRect.pi_div_4_as_float := narrow (double_div pi_double (double_of_Z 4));
  SmoothRoundRect.flt := fun a b => SFltb a b = true;
  SmoothRoundRect.fle := fun a b => SFleb a b = true
|}.

(** The values a [float] can hold: a [spec_float] whose mantissa and
    exponent are those of the binary32 format. *)
Definition canonical (f : float) : Prop := valid_binary prec emax f = true.

(** The number a finite [float] stands for, [m * 2^e] with its sign
    (and 0 for the values that stand for no number). *)
Definition to_R (f : float) : R :=
  match f with
  | S754_finite s m e =>
      let magnitude :=
        if (0 <=? e)%Z then IZR (Zpos m * 2 ^ e)
        else (IZR (Zpos m) / IZR (2 ^ (- e)))%R in
      if s then (- magnitude)%R else magnitude
  | _ => 0%R
  end.

(** A path of [float] coordinates, as the points of the plane it names. *)
Definition real_point (p : SmoothRoundRect.SkPoint float) : SmoothRoundRect.SkPoint R :=
  SmoothRoundRect.MakePoint (to_R (SmoothRoundRect.fX p)) (to_R (SmoothRoundRect.fY p)).

Definition real_command (c : SmoothRoundRect.PathCommand float)
    : SmoothRoundRect.PathCommand R :=
  match c with
  | SmoothRoundRect.MoveTo p => SmoothRoundRect.MoveTo (real_point p)
  | SmoothRoundRect.LineTo p => SmoothRoundRect.LineTo (real_point p)
  | SmoothRoundRect.CubicTo p1 p2 p3 =>
      SmoothRoundRect.CubicTo (real_point p1) (real_point p2) (real_point p3)
  | SmoothRoundRect.ArcTo r rot size dir p =>
      SmoothRoundRect.ArcTo (real_point r) (to_R rot) size dir (real_point p)
  | SmoothRoundRect.Close => SmoothRoundRect.Close
  end.

Definition real_path (path : SmoothRoundRect.SkPath float) : SmoothRoundRect.SkPath R :=
  real_command <$> path.

Definition real_segment (s : SmoothRoundRect.Segment float)
    : SmoothRoundRect.Segment R :=
  match s with
  | SmoothRoundRect.LineSegment a b =>
      SmoothRoundRect.LineSegment (real_point a) (real_point b)
  | SmoothRoundRect.CubicSegment a c1 c2 b =>
      SmoothRoundRect.CubicSegment (real_point a) (real_point c1)
        (real_point c2) (real_point b)
  | SmoothRoundRect.ArcSegment a r rot size dir b =>
      SmoothRoundRect.ArcSegment (real_point a) (real_point r) (to_R rot)
        size dir (real_point b)
  end.

(** ** Rounding, as arithmetic on integers

    The reference against which the rounding of [SpecFloat] is read in the
    proofs below: a positive value [m * 2^e] is brought to the exponent
    [E_of m e] of its binade, its mantissa is rounded to nearest with ties
    to even, and the result is put in canonical form. *)

(** [m / 2^n] rounded to nearest, ties to even. *)
Definition rne (m n : Z) : Z :=
  let q := (m / 2 ^ n)%Z in
  let rem := (m mod 2 ^ n)%Z in
  if (2 * rem <? 2 ^ n)%Z then q
  else if (2 * rem =? 2 ^ n)%Z then (if Z.even q then q else (q + 1)%Z)
  else (q + 1)%Z.

(** The exponent of the format for the value [m * 2^e], [m] positive. *)
Definition E_of (m e : Z) : Z := Z.max (Z.log2 m + 1 + e - 24) (-149).

(** The float of mantissa [r], at most [2^24], and exponent [E]. *)
Definition finish (r E : Z) : spec_float :=
  if (r =? 0)%Z then S754_zero false
  else if (r =? 2 ^ 24)%Z then
    (if (E + 1 <=? 104)%Z then S754_finite false (2 ^ 23) (E + 1)
     else S754_infinity false)
  else if (E <=? 104)%Z then S754_finite false (Z.to_pos r) E
  else S754_infinity false.

(** The value [m * 2^e], rounded. *)
Definition rounded (m e : Z) : spec_float :=
  finish (rne m (E_of m e - e)) (E_of m e).

(** The rank of [finish r E] among the non-negative floats. *)
Definition key (r E : Z) : Z := ((E + 149) * 2 ^ 23 + r)%Z.

(** Mantissa and exponent of a rounded value: subnormal or normal. *)
Definition well_formed (r E : Z) : Prop :=
  (0 <= r <= 2 ^ 24)%Z /\ (-149 <= E)%Z /\ (-149 < E -> 2 ^ 23 <= r)%Z.

(** The floats 0.0f and 1.0f. *)
Definition zero : float := S754_zero false.
Definition one : float := S754_finite false 8388608 (-23).

End Binary32.

(** ** The floats that pass a check against 0.0f *)

Module Binary32Values.
Import Binary32.

(** A positive finite float, or +infinity. *)
Definition positive_float (f : float) : Prop :=
  f = S754_infinity false \/ exists m e, f = S754_finite false m e.

(** Two maths libraries for the examples: one that returns its argument,
    and one that differs from it at 5.0f only. *)
Definition identity_library : MathLibrary :=
  {| lib_sin := fun f => f; lib_cos := fun f => f; lib_tan := fun f => f |}.

Definition other_library : MathLibrary :=
  let at_five (f : float) : float :=
    if SFeqb f (of_Z 5) then of_Z 0 else f in
  {| lib_sin := at_five; lib_cos := at_five; lib_tan := at_five |}.

End Binary32Values.

(** ** Exact arithmetic: the real numbers *)

Module Exact.

#[export] Instance ops : SmoothRoundRect.FloatOps R := {|
  SmoothRoundRect.fconst := IZR;
  SmoothRoundRect.fadd := Rplus;
  SmoothRoundRect.fsub := Rminus;
  SmoothRoundRect.fmul := Rmult;
  SmoothRoundRect.fdiv := Rdiv;
  SmoothRoundRect.fneg := Ropp;
  SmoothRoundRect.fsin := sin;
  SmoothRoundRect.fcos := cos;
  SmoothRoundRect.ftan := tan;
  SmoothRoundRect.pi_div_4_as_float := (PI / 4)%R;
  SmoothRoundRect.flt := Rlt;
  SmoothRoundRect.fle := Rle
|}.

End Exact.

(** ** The formulas as the design describes them, over the reals *)

Module Design.
Local Open Scope R_scope.

(** q = R * sqrt ((1 + cos theta) / (1 - cos theta)), for a corner of
    angle theta. *)
Definition rounding_length_at (theta radius : R) : R :=
  radius * sqrt ((1 + cos theta) / (1 - cos theta)).

(** p = (1 + xi) * q *)
Definition smoothed_length (xi q : R) : R := (1 + xi) * q.

(** alpha = (pi / 4) * xi *)
Definition connecting_angle (xi : R) : R := (PI / 4) * xi.

(** R * (1 - sin alpha, 1 - cos alpha) *)
Definition connecting_vector (alpha radius : R) : R * R :=
  (radius * (1 - sin alpha), radius * (1 - cos alpha)).

(** arc_connecting_vector.x + R * tan (alpha / 2) * cos alpha *)
Definition arc_offset (alpha radius : R) : R :=
  fst (connecting_vector alpha radius) + radius * tan (alpha / 2) * cos alpha.

(** p - (p - arc_curve_offset) * (2 / 3) *)
Definition edge_offset (p arc_curve_offset : R) : R :=
  p - (p - arc_curve_offset) * (2 / 3).

End Design.

(** ** The corner curves as curves of the plane *)

Module Geometry.
Import SmoothRoundRect.
Local Open Scope R_scope.

(** A cubic Bezier curve, one coordinate at a time. *)
Definition bezier3 (a b c d t : R) : R :=
  (1 - t) ^ 3 * a + 3 * (1 - t) ^ 2 * t * b + 3 * (1 - t) * t ^ 2 * c
  + t ^ 3 * d.

Definition cubic_point (a c1 c2 b : SkPoint R) (t : R) : SkPoint R :=
  MakePoint (bezier3 (fX a) (fX c1) (fX c2) (fX b) t)
            (bezier3 (fY a) (fY c1) (fY c2) (fY b) t).

Definition distance (p q : SkPoint R) : R :=
  sqrt ((fX p - fX q) ^ 2 + (fY p - fY q) ^ 2).

(** How far a point is outside the circle of a corner. *)
Definition deviation (centre : SkPoint R) (radius : R) (p : SkPoint R) : R :=
  distance p centre - radius.

(** [d] is the largest deviation on a cubic segment: it is reached, and
    no point of the segment exceeds it. *)
Definition max_deviation (centre : SkPoint R) (radius : R)
    (s : Segment R) (d : R) : Prop :=
  match s with
  | CubicSegment a c1 c2 b =>
      (exists t, 0 <= t <= 1 /\
         deviation centre radius (cubic_point a c1 c2 b t) = d) /\
      (forall t, 0 <= t <= 1 ->
         deviation centre radius (cubic_point a c1 c2 b t) <= d)
  | _ => False
  end.

(** An arc segment of radii ([radius], [radius]) whose two ends are on
    the circle. *)
Definition on_circle (centre : SkPoint R) (radius : R) (s : Segment R) : Prop :=
  match s with
  | ArcSegment a r _ _ _ b =>
      r = MakePoint radius radius /\
      deviation centre radius a = 0 /\ deviation centre radius b = 0
  | _ => False
  end.

(** The centres of the four arcs: upper left, upper right, bottom right,
    bottom left. *)
Definition corner_centres (x y width height radius : R) : list (SkPoint R) :=
  [ MakePoint (x + radius) (y + radius);
    MakePoint (x + width - radius) (y + radius);
    MakePoint (x + width - radius) (y + height - radius);
    MakePoint (x + radius) (y + height - radius) ].

(** The deviation of a corner curve at its end on the edge, at distance
    p = (1 + xi) * R from the corner. *)
Definition corner_deviation (xi radius : R) : R :=
  radius * (sqrt (1 + xi ^ 2) - 1).

(** A point in the box of half-sides [r1], [r2] about the centre, and a
    point at a corner of that box. *)
Definition in_box (centre : SkPoint R) (r1 r2 : R) (p : SkPoint R) : Prop :=
  - r1 <= fX p - fX centre <= r1 /\ - r2 <= fY p - fY centre <= r2.

Definition at_corner (centre : SkPoint R) (r1 r2 : R) (p : SkPoint R) : Prop :=
  (fX p - fX centre) ^ 2 + (fY p - fY centre) ^ 2 = r1 ^ 2 + r2 ^ 2.

(** The kinds of the sixteen segments of the path. *)
Definition square_kinds : list nat :=
  [1; 2; 1; 0; 1; 2; 1; 0; 1; 2; 1; 0; 1; 2; 1; 0]%nat.

End Geometry.

(** ** Directions, containment and transformations of a drawing

    What the further properties of the path are stated with: the vector
    between two points and its clockwise normal, the tangent conditions
    at the joints of the segments, the rectangle the path is drawn in,
    and the images of a path or of its segments under a translation, a
    scaling and a reflection. *)

Module PathGeometry.
Import SmoothRoundRect.
Local Open Scope R_scope.

(** The vector from [a] to [b]. *)
Definition vector (a b : SkPoint R) : SkPoint R :=
  MakePoint (fX b - fX a) (fY b - fY a).

(** A vector turned by a quarter turn, clockwise on the screen (the y
    axis points down). *)
Definition clockwise_normal (v : SkPoint R) : SkPoint R :=
  MakePoint (- fY v) (fX v).

Definition scaled (k : R) (v : SkPoint R) : SkPoint R :=
  MakePoint (k * fX v) (k * fY v).

(** A cubic that ends on the circle about [centre] along the tangent of
    the circle: its last control leg is [k] times the clockwise normal of
    the radius to its end point. *)
Definition enters_arc (centre : SkPoint R) (k : R) (s : Segment R) : Prop :=
  match s with
  | CubicSegment _ _ c2 b =>
      vector c2 b = scaled k (clockwise_normal (vector centre b))
  | _ => False
  end.

(** A cubic that starts on the circle along its tangent. *)
Definition leaves_arc (centre : SkPoint R) (k : R) (s : Segment R) : Prop :=
  match s with
  | CubicSegment a c1 _ _ =>
      vector a c1 = scaled k (clockwise_normal (vector centre a))
  | _ => False
  end.

(** [u] is a non-negative multiple of [v]. *)
Definition same_direction (u v : SkPoint R) : Prop :=
  exists k, 0 <= k /\ u = scaled k v.

(** A straight edge between two cubics: the cubic before ends where the
    edge starts, the cubic after starts where it ends, and the control
    points of both next to the edge lie on its line, behind its start and
    ahead of its end. *)
Definition joined_straight (before line after : Segment R) : Prop :=
  match before, line, after with
  | CubicSegment _ c1' c2' a', LineSegment a b, CubicSegment b' c1 c2 _ =>
      a' = a /\ b' = b /\
      same_direction (vector a b) (vector c2' a) /\
      same_direction (vector a b) (vector c1' a) /\
      same_direction (vector a b) (vector b c1) /\
      same_direction (vector a b) (vector b c2)
  | _, _, _ => False
  end.

(** The vector a straight segment runs along. *)
Definition line_vector (s : Segment R) : option (SkPoint R) :=
  match s with
  | LineSegment a b => Some (vector a b)
  | _ => None
  end.

(** The rectangle of corner (x, y), width and height. *)
Definition in_rect (x y width height : R) (p : SkPoint R) : Prop :=
  x <= fX p <= x + width /\ y <= fY p <= y + height.

Definition line_point (a b : SkPoint R) (t : R) : SkPoint R :=
  MakePoint ((1 - t) * fX a + t * fX b) ((1 - t) * fY a + t * fY b).

(** A segment inside the rectangle: every point of a line and of a cubic,
    the control points of a cubic, and the two ends of an arc. *)
Definition segment_in_rect (x y width height : R) (s : Segment R) : Prop :=
  match s with
  | LineSegment a b =>
      forall t, 0 <= t <= 1 -> in_rect x y width height (line_point a b t)
  | CubicSegment a c1 c2 b =>
      in_rect x y width height c1 /\ in_rect x y width height c2 /\
      forall t, 0 <= t <= 1 ->
        in_rect x y width height (Geometry.cubic_point a c1 c2 b t)
  | ArcSegment a _ _ _ _ b =>
      in_rect x y width height a /\ in_rect x y width height b
  end.

(** A path with [f] applied to its points and [g] to the radii of its
    arcs. *)
Definition map_command (f : SkPoint R -> SkPoint R) (g : R -> R)
    (c : PathCommand R) : PathCommand R :=
  match c with
  | MoveTo p => MoveTo (f p)
  | LineTo p => LineTo (f p)
  | CubicTo p1 p2 p3 => CubicTo (f p1) (f p2) (f p3)
  | ArcTo r rot size dir p =>
      ArcTo (MakePoint (g (fX r)) (g (fY r))) rot size dir (f p)
  | Close => Close
  end.

Definition translate (dx dy : R) (path : SkPath R) : SkPath R :=
  map_command (fun p => MakePoint (fX p + dx) (fY p + dy)) (fun r => r) <$> path.

Definition scale (k : R) (path : SkPath R) : SkPath R :=
  map_command (fun p => MakePoint (k * fX p) (k * fY p)) (fun r => k * r) <$> path.

Definition flip (d : SkPathDirection) : SkPathDirection :=
  match d with kCW => kCCW | kCCW => kCW end.

(** A segment drawn from its end to its start. *)
Definition reverse_segment (s : Segment R) : Segment R :=
  match s with
  | LineSegment a b => LineSegment b a
  | CubicSegment a c1 c2 b => CubicSegment b c2 c1 a
  | ArcSegment a r rot size dir b => ArcSegment b r rot size (flip dir) a
  end.

(** A drawing traversed backwards. *)
Definition reverse_segments (l : list (Segment R)) : list (Segment R) :=
  reverse (reverse_segment <$> l).

(** The image of a point in the vertical line of abscissa [cx]; a
    reflection turns a clockwise arc into a counterclockwise one. *)
Definition mirror (cx : R) (p : SkPoint R) : SkPoint R :=
  MakePoint (2 * cx - fX p) (fY p).

Definition mirror_segment (cx : R) (s : Segment R) : Segment R :=
  match s with
  | LineSegment a b => LineSegment (mirror cx a) (mirror cx b)
  | CubicSegment a c1 c2 b =>
      CubicSegment (mirror cx a) (mirror cx c1) (mirror cx c2) (mirror cx b)
  | ArcSegment a r rot size dir b =>
      ArcSegment (mirror cx a) r rot size (flip dir) (mirror cx b)
  end.

(** An arc command of a corner: a circular arc of the given radius, not
    rotated, the small one of the two, clockwise. *)
Definition is_corner_arc {F : Type} `{FloatOps F} (radius : F)
    (c : PathCommand F) : Prop :=
  match c with
  | ArcTo r rot size dir _ =>
      r = Make radius radius /\ rot = fconst 0 /\
      size = kSmall_ArcSize /\ dir = kCW
  | _ => True
  end.

End PathGeometry.

(* ===================================================================== *)
(** * Part II: definitions for [preload_script.h]                        *)
(* ===================================================================== *)

Module PreloadScriptGin.

(** ** The binding layer the converters are written against

    V8 values, [base::FilePath] and the converters of [gin] and
    [gin_helper] for strings, booleans, paths and dictionaries are used
    by [preload_script.h] but defined elsewhere.  The header is embedded
    over this interface.  A converter [bool FromV8(isolate, val, T* out)]
    called on a fresh local is an [option T]. *)
Class GinBindings : Type := {
  Value : Type;
  FilePath : Type;
  Dictionary : Type;
  (** [base::FilePath::AsUTF8Unsafe] *)
  AsUTF8Unsafe : FilePath -> string;
  (** [gin::StringToV8], also [Converter<std::string>::ToV8] *)
  StringToV8 : string -> Value;
  (** [Converter<std::string>::FromV8] *)
  string_FromV8 : Value -> option string;
  (** [Converter<bool>::FromV8] *)
  bool_FromV8 : Value -> option bool;
  (** [Converter<base::FilePath>::FromV8] *)
  FilePath_FromV8 : Value -> option FilePath;
  (** a dictionary over [v8::Object::New(isolate)] *)
  Dictionary_New : Dictionary;
  (** storing an already converted value under a key *)
  Dictionary_SetValue : string -> Value -> Dictionary -> Dictionary;
  (** the value stored under a key, when the object has that key *)
  Dictionary_GetValue : string -> Dictionary -> option Value;
  (** [ConvertToV8] and [ConvertFromV8] at the dictionary type *)
  Dictionary_ToV8 : Dictionary -> Value;
  Dictionary_FromV8 : Value -> option Dictionary
}.

(** What the round trips rely on: the object behaves as a map from keys to
    values, and strings and paths survive their own conversion. *)
Class GinLaws `{GinBindings} : Prop := {
  dictionary_round_trip : forall d, Dictionary_FromV8 (Dictionary_ToV8 d) = Some d;
  get_new : forall k, Dictionary_GetValue k Dictionary_New = None;
  get_set_same : forall k v d,
    Dictionary_GetValue k (Dictionary_SetValue k v d) = Some v;
  get_set_other : forall k k' v d, k <> k' ->
    Dictionary_GetValue k (Dictionary_SetValue k' v d) = Dictionary_GetValue k d;
  string_round_trip : forall s, string_FromV8 (StringToV8 s) = Some s;
  FilePath_round_trip : forall p,
    FilePath_FromV8 (StringToV8 (AsUTF8Unsafe p)) = Some p
}.

Section Converters.
Context `{GinBindings}.

(** ** [struct PreloadScript] *)

Inductive ScriptType : Set := kWebFrame | kServiceWorker.

Record PreloadScript : Type := {
  id : string;
  script_type : ScriptType;
  file_path : FilePath;
  (** If set, use the deprecated validation behavior of
      Session.setPreloads; the member initialiser is [false]. *)
  deprecated : bool
}.

Definition with_script_type (t : ScriptType) (s : PreloadScript) : PreloadScript :=
  {| id := id s; script_type := t; file_path := file_path s;
     deprecated := deprecated s |}.
Definition with_file_path (p : FilePath) (s : PreloadScript) : PreloadScript :=
  {| id := id s; script_type := script_type s; file_path := p;
     deprecated := deprecated s |}.
Definition with_id (i : string) (s : PreloadScript) : PreloadScript :=
  {| id := i; script_type := script_type s; file_path := file_path s;
     deprecated := deprecated s |}.
Definition with_deprecated (b : bool) (s : PreloadScript) : PreloadScript :=
  {| id := id s; script_type := script_type s; file_path := file_path s;
     deprecated := b |}.

(** ** [base::fixed_flat_map]: a constant table of key/value pairs *)

Definition fixed_flat_map (K V : Type) : Type := list (K * V).

(** [find]: the value of the first (the only) entry with that key. *)
Fixpoint flat_map_find {K V : Type} (eqb : K -> K -> bool)
    (table : fixed_flat_map K V) (key : K) : option V :=
  match table with
  | [] => None
  | (k, v) :: rest => if eqb key k then Some v else flat_map_find eqb rest key
  end.

(** [at]: as [find], and a failed [CHECK] ([None]) on a missing key. *)
Definition flat_map_at {K V : Type} (eqb : K -> K -> bool)
    (table : fixed_flat_map K V) (key : K) : option V :=
  flat_map_find eqb table key.

Definition ScriptType_eqb (a b : ScriptType) : bool :=
  match a, b with
  | kWebFrame, kWebFrame | kServiceWorker, kServiceWorker => true
  | _, _ => false
  end.

(** ** Helpers of the binding layer defined on top of the interface *)

(** [gin::Dictionary::Set(key, val)]: convert, then store.  A converter to
    V8 that can stop the program on a failed [CHECK] is an [option]. *)
Definition Dictionary_Set {T : Type} (to_v8 : T -> option Value)
    (key : string) (val : T) (dict : Dictionary) : option Dictionary :=
  match to_v8 val with
  | Some value => Some (Dictionary_SetValue key value dict)
  | None => None
  end.

(** [Converter<std::string>::ToV8] *)
Definition string_ToV8 (s : string) : option Value := Some (StringToV8 s).

(** Modelled from the spec: [gin_helper::Dictionary::Get(key, &out)] is
    defined in [shell/common/gin_helper/dictionary.h], which is not among
    the sources.  Following what is said of the converter that calls it
    ("a dictionary containing convertible values for the keys"), it is
    true when the object has the key and the value under it converts. *)
Definition Dictionary_Get {T : Type} (from_v8 : Value -> option T)
    (key : string) (dict : Dictionary) : option T :=
  match Dictionary_GetValue key dict with
  | Some value => from_v8 value
  | None => None
  end.

(** The dictionary has the key, and the value under it converts. *)
Definition has_convertible {T : Type} (from_v8 : Value -> option T)
    (key : string) (options : Dictionary) : Prop :=
  exists value,
    Dictionary_GetValue key options = Some value /\ is_Some (from_v8 value).

(** Modelled from the spec: [FromV8WithLookup] is called by the header and
    defined in [shell/common/gin_converters/std_converter.h], which is not
    among the sources.  Following what is said of the converter that
    calls it ("FromV8 of either of those two strings succeeds and returns
    the corresponding enum value, and FromV8 of any other string returns
    false"), it converts the value to a string and finds that string in the
    table. *)
Definition FromV8WithLookup {V : Type} (val : Value)
    (table : fixed_flat_map string V) : option V :=
  match string_FromV8 val with
  | Some key => flat_map_find String.eqb table key
  | None => None
  end.

(** ** [gin::Converter<PreloadScript::ScriptType>] *)

Definition ScriptType_ToV8_Lookup : fixed_flat_map ScriptType string :=
  [ (kWebFrame, "frame"%string); (kServiceWorker, "service-worker"%string) ].

Definition ScriptType_FromV8_Lookup : fixed_flat_map string ScriptType :=
  [ ("frame"%string, kWebFrame); ("service-worker"%string, kServiceWorker) ].

(** [None] is the failed [CHECK] of [Lookup.at]. *)
Definition ScriptType_ToV8 (input : ScriptType) : option Value :=
  match flat_map_at ScriptType_eqb ScriptType_ToV8_Lookup input with
  | Some s => Some (StringToV8 s)
  | None => None
  end.

Definition ScriptType_FromV8 (val : Value) : option ScriptType :=
  FromV8WithLookup val ScriptType_FromV8_Lookup.

(** ** [gin::Converter<PreloadScript>] *)

Definition PreloadScript_ToV8 (script : PreloadScript) : option Value :=
  let dict := Dictionary_New in
  dict ← Dictionary_Set string_ToV8 "filePath" (AsUTF8Unsafe (file_path script)) dict;
  dict ← Dictionary_Set string_ToV8 "id" (id script) dict;
  dict ← Dictionary_Set ScriptType_ToV8 "type" (script_type script) dict;
  Some (Dictionary_ToV8 dict).

(** The result pairs the returned [bool] with the final state of [*out]. *)
Definition PreloadScript_FromV8 (val : Value) (out : PreloadScript)
    : bool * PreloadScript :=
  match Dictionary_FromV8 val with
  | None => (false, out)
  | Some options =>
      match Dictionary_Get ScriptType_FromV8 "type" options with
      | None => (false, out)
      | Some script_type =>
          let out := with_script_type script_type out in
          match Dictionary_Get FilePath_FromV8 "filePath" options with
          | None => (false, out)
          | Some file_path =>
              let out := with_file_path file_path out in
              match Dictionary_Get string_FromV8 "id" options with
              | None => (false, out)
              | Some id =>
                  let out := with_id id out in
                  let out :=
                    match Dictionary_Get bool_FromV8 "_deprecated" options with
                    | Some deprecated => with_deprecated deprecated out
                    | None => out
                    end in
                  (true, out)
              end
          end
      end
  end.

End Converters.

(** ** A model of the interface: JavaScript values with objects as maps *)

Module Model.

#[warnings="-register-all"]
Inductive v8_value : Type :=
  | V8Undefined
  | V8Null
  | V8Boolean (b : bool)
  | V8Number (n : Z)
  | V8String (s : string)
  | V8Object (properties : gmap string v8_value).

Definition to_boolean (v : v8_value) : bool :=
  match v with
  | V8Undefined | V8Null => false
  | V8Boolean b => b
  | V8Number n => negb (Z.eqb n 0)
  | V8String s => negb (String.eqb s "")
  | V8Object _ => true
  end.

#[export] Instance bindings : GinBindings := {|
  Value := v8_value;
  FilePath := string;
  Dictionary := gmap string v8_value;
  AsUTF8Unsafe := fun p => p;
  StringToV8 := V8String;
  string_FromV8 := fun v => match v with V8String s => Some s | _ => None end;
  bool_FromV8 := fun v => Some (to_boolean v);
  FilePath_FromV8 := fun v => match v with V8String s => Some s | _ => None end;
  Dictionary_New := ∅;
  Dictionary_SetValue := fun k v d => <[k := v]> d;
  Dictionary_GetValue := fun k d => d !! k;
  Dictionary_ToV8 := V8Object;
  Dictionary_FromV8 := fun v => match v with V8Object d => Some d | _ => None end
|}.

(** A [PreloadScript] over the model, its path given as text. *)
Definition script (i : string) (t : ScriptType) (p : string) (d : bool)
    : PreloadScript (H := bindings) :=
  @Build_PreloadScript bindings i t p d.

End Model.

End PreloadScriptGin.

(** ** The names of the script types *)

Module PreloadScriptNames.
Import PreloadScriptGin.

(** The text [ToV8] gives a script type, as the table of the converter
    has it. *)
Definition type_name (t : ScriptType) : string :=
  match t with
  | kWebFrame => "frame"
  | kServiceWorker => "service-worker"
  end.

End PreloadScriptNames.

(* ===================================================================== *)
(** * Part III: the rounding of binary32 additions and multiplications   *)
(* ===================================================================== *)

Module Binary32Rounding.
Import Binary32.
Local Open Scope Z_scope.

(** The operations of [SpecFloat] are read against the integer reference
    of [Binary32]: [binary_round_aux] is [rounded], and [rounded] is
    monotone in the value it rounds.  This gives the order of the results
    of [1.0f + xi] and of its product with the radius. *)

(** ** Digits and shifts

    The number of binary digits of a mantissa is one more than its
    logarithm. *)
Lemma digits2_pos_log2 (m : positive) :
  Zpos (digits2_pos m) = Z.log2 (Zpos m) + 1.
Proof.
  assert (Hsize : forall p, digits2_pos p = Pos.size p).
  { induction p; simpl; congruence. }
  destruct m; simpl; rewrite ?Hsize; lia.
Qed.

Lemma digits2_pos_bounds (m : positive) :
  2 ^ (Zpos (digits2_pos m) - 1) <= Zpos m < 2 ^ Zpos (digits2_pos m).
Proof.
  rewrite digits2_pos_log2.
  pose proof (Z.log2_spec (Zpos m) ltac:(lia)) as H.
  replace (Z.log2 (Z.pos m) + 1 - 1) with (Z.log2 (Zpos m)) by lia.
  replace (Z.log2 (Z.pos m) + 1) with (Z.succ (Z.log2 (Zpos m))) by lia.
  exact H.
Qed.

(** [iter_pos] iterates as many times as its argument says. *)
Lemma iter_pos_nat {A : Type} (f : A -> A) (p : positive) (x : A) :
  SpecFloat.iter_pos f p x = Nat.iter (Pos.to_nat p) f x.
Proof.
  revert x. induction p as [p IH|p IH|]; intros x; cbn [SpecFloat.iter_pos].
  - rewrite !IH. rewrite Pos2Nat.inj_xI.
    replace (S (2 * Pos.to_nat p))%nat with (Pos.to_nat p + (Pos.to_nat p + 1))%nat by lia.
    rewrite !Nat.iter_add. simpl. reflexivity.
  - rewrite !IH. rewrite Pos2Nat.inj_xO.
    replace (2 * Pos.to_nat p)%nat with (Pos.to_nat p + Pos.to_nat p)%nat by lia.
    rewrite Nat.iter_add. reflexivity.
  - reflexivity.
Qed.

(** One step of [shr_1] halves the mantissa, takes its last bit as the
    round bit and folds the old round bit into the sticky bit. *)
Lemma shr_1_spec (m : Z) (r s : bool) :
  0 <= m ->
  shr_1 (Build_shr_record m r s) = Build_shr_record (m / 2) (Z.odd m) (r || s).
Proof.
  intros Hm. destruct m as [|p|p]; [reflexivity| |lia].
  destruct p as [p|p|]; simpl shr_1; f_equal.
  - rewrite Pos2Z.inj_xI. apply Z.div_unique with 1; lia.
  - rewrite Pos2Z.inj_xO. apply Z.div_unique with 0; lia.
Qed.

(** After [k + 1] steps: the quotient by [2^(k+1)], bit [k] as round bit,
    and a sticky bit that says whether the [k] bits below are all zero. *)
Lemma shr_iter (m0 : Z) (k : nat) :
  0 <= m0 ->
  Nat.iter (S k) shr_1 (Build_shr_record m0 false false)
  = Build_shr_record (m0 / 2 ^ Z.of_nat (S k))
                     (Z.testbit m0 (Z.of_nat k))
                     (negb (m0 mod 2 ^ Z.of_nat k =? 0)).
Proof.
  intros Hm. induction k as [|k IH].
  - unfold Nat.iter; cbn [nat_rect]. rewrite shr_1_spec by lia.
    change (Z.of_nat 1) with 1. change (Z.of_nat 0) with 0.
    rewrite Z.pow_1_r, Z.pow_0_r, Z.mod_1_r, Z.bit0_odd. reflexivity.
  - rewrite Nat.iter_succ, IH.
    rewrite shr_1_spec by (apply Z.div_pos; lia).
    pose proof (Z.pow_pos_nonneg 2 (Z.of_nat k) ltac:(lia) ltac:(lia)) as Hp.
    assert (Hk1 : 2 ^ Z.of_nat (S k) = 2 * 2 ^ Z.of_nat k).
    { rewrite Nat2Z.inj_succ, Z.pow_succ_r by lia. reflexivity. }
    assert (Hk2 : 2 ^ Z.of_nat (S (S k)) = 2 * 2 ^ Z.of_nat (S k)).
    { rewrite (Nat2Z.inj_succ (S k)), Z.pow_succ_r by lia. reflexivity. }
    assert (E1 : m0 / 2 ^ Z.of_nat (S k) / 2 = m0 / 2 ^ Z.of_nat (S (S k))).
    { rewrite Z.div_div by lia. f_equal. lia. }
    assert (E2 : Z.odd (m0 / 2 ^ Z.of_nat (S k)) = Z.testbit m0 (Z.of_nat (S k))).
    { rewrite Z.testbit_odd, Z.shiftr_div_pow2 by lia. reflexivity. }
    assert (E3 : Z.testbit m0 (Z.of_nat k) || negb (m0 mod 2 ^ Z.of_nat k =? 0)
                 = negb (m0 mod 2 ^ Z.of_nat (S k) =? 0)).
    { rewrite Hk1. set (P := 2 ^ Z.of_nat k) in *.
      assert (Hdecomp : m0 mod (2 * P) = P * ((m0 / P) mod 2) + m0 mod P).
      { rewrite (Z.mul_comm 2 P). rewrite Z.rem_mul_r by lia. lia. }
      rewrite Hdecomp.
      pose proof (Z.mod_pos_bound (m0 / P) 2 ltac:(lia)).
      pose proof (Z.mod_pos_bound m0 P ltac:(lia)).
      destruct (Z.testbit m0 (Z.of_nat k)) eqn:Eb.
      - apply Z.testbit_true in Eb; [|lia]. fold P in Eb. rewrite Eb.
        simpl orb. symmetry. apply negb_true_iff, Z.eqb_neq. nia.
      - apply Z.testbit_false in Eb; [|lia]. fold P in Eb. rewrite Eb.
        simpl orb. f_equal. f_equal. lia. }
    rewrite E1, E2, E3. reflexivity.
Qed.

(** ** Rounding to nearest even

    Shifting by [n] bits and rounding the record to nearest even is [rne]. *)
Lemma shr_rne (m : Z) (e : Z) (n : positive) :
  0 <= m ->
  let mrs := fst (shr (Build_shr_record m false false) e (Zpos n)) in
  round_nearest_even (shr_m mrs) (loc_of_shr_record mrs) = rne m (Zpos n)
  /\ snd (shr (Build_shr_record m false false) e (Zpos n)) = e + Zpos n.
Proof.
  intros Hm mrs. split; [|reflexivity].
  unfold mrs, shr. cbn [fst]. rewrite iter_pos_nat.
  destruct (Pos.to_nat n) as [|k] eqn:Ek; [lia|].
  rewrite shr_iter by lia.
  assert (Hn : Zpos n = Z.of_nat (S k)) by lia.
  rewrite <- Hn.
  assert (Hk : Z.of_nat k = Zpos n - 1) by lia.
  rewrite Hk. clear Ek Hn Hk k. 
  unfold rne. cbn [shr_m].
  pose proof (Z.pow_pos_nonneg 2 (Zpos n - 1) ltac:(lia) ltac:(lia)) as Hp.
  assert (Hpow : 2 ^ Zpos n = 2 * 2 ^ (Zpos n - 1)).
  { rewrite <- Z.pow_succ_r by lia. f_equal. lia. }
  set (P := 2 ^ (Zpos n - 1)) in *. rewrite Hpow.
  assert (Hdecomp : m mod (2 * P) = P * ((m / P) mod 2) + m mod P).
  { rewrite (Z.mul_comm 2 P). rewrite Z.rem_mul_r by lia. lia. }
  rewrite Hdecomp.
  pose proof (Z.mod_pos_bound (m / P) 2 ltac:(lia)).
  pose proof (Z.mod_pos_bound m P ltac:(lia)).
  destruct (Z.testbit m (Zpos n - 1)) eqn:Eb.
  - apply Z.testbit_true in Eb; [|lia]. fold P in Eb. rewrite Eb.
    destruct (Z.eqb_spec (m mod P) 0) as [E0|E0]; cbn [negb loc_of_shr_record round_nearest_even].
    + rewrite E0.
      destruct (Z.ltb_spec (2 * (P * 1 + 0)) (2 * P)); [lia|].
      destruct (Z.eqb_spec (2 * (P * 1 + 0)) (2 * P)); [|lia]. reflexivity.
    + destruct (Z.ltb_spec (2 * (P * 1 + m mod P)) (2 * P)); [lia|].
      destruct (Z.eqb_spec (2 * (P * 1 + m mod P)) (2 * P)); [lia|]. reflexivity.
  - apply Z.testbit_false in Eb; [|lia]. fold P in Eb. rewrite Eb.
    destruct (Z.ltb_spec (2 * (P * 0 + m mod P)) (2 * P)); [|lia].
    destruct (Z.eqb_spec (m mod P) 0); reflexivity.
Qed.

(** The exponent [SpecFloat] aims at is [E_of]. *)
Lemma fexp_E (m : positive) (e : Z) :
  fexp 24 128 (Zdigits2 (Zpos m) + e) = E_of (Zpos m) e.
Proof.
  unfold fexp, emin, E_of. cbn [Zdigits2]. rewrite digits2_pos_log2. lia.
Qed.

(** [rne] is the quotient or the next integer. *)
Lemma rne_bounds (m n : Z) :
  0 <= m -> 0 <= n -> m / 2 ^ n <= rne m n <= m / 2 ^ n + 1.
Proof.
  intros Hm Hn. unfold rne.
  destruct (_ <? _); [lia|]. destruct (_ =? _); [|lia].
  destruct (Z.even _); lia.
Qed.

Lemma rne_exact (m : Z) : rne m 0 = m.
Proof.
  unfold rne. rewrite Z.pow_0_r, Z.mod_1_r, Z.div_1_r. reflexivity.
Qed.

(** At the exponent of the format the rounded mantissa has at most 24
    bits, or is [2^24]. *)
Lemma rne_lt_pow (m e : Z) :
  0 < m -> 0 <= E_of m e - e -> rne m (E_of m e - e) <= 2 ^ 24.
Proof.
  intros Hm Hn.
  pose proof (rne_bounds m (E_of m e - e) ltac:(lia) Hn) as [_ Hub].
  pose proof (Z.log2_spec m Hm) as [_ Hlog].
  assert (Hq : m / 2 ^ (E_of m e - e) < 2 ^ 24).
  { apply Z.div_lt_upper_bound; [apply Z.pow_pos_nonneg; lia|].
    rewrite <- Z.pow_add_r by lia.
    eapply Z.lt_le_trans; [exact Hlog|].
    apply Z.pow_le_mono_r; [lia|]. unfold E_of in *. lia. }
  lia.
Qed.

(** The second pass of [binary_round_aux] renormalises the mantissa
    [2^24] and changes nothing else. *)
Lemma second_stage (r E : Z) :
  0 <= r <= 2 ^ 24 -> -149 <= E ->
  (let '(mrs, e) := shr_fexp 24 128 r E loc_Exact in
   match shr_m mrs with
   | Z0 => S754_zero false
   | Zpos m => if e <=? 128 - 24 then S754_finite false m e else S754_infinity false
   | Zneg _ => S754_nan
   end) = finish r E.
Proof.
  intros Hr HE. unfold finish, shr_fexp. cbn [shr_record_of_loc].
  destruct (Z.eqb_spec r 0) as [->|Hr0].
  - cbn [Zdigits2]. unfold fexp, emin.
    destruct (Z.max (0 + E - 24) (3 - 128 - 24) - E) eqn:En; try lia; reflexivity.
  - destruct (Z.eqb_spec r (2 ^ 24)) as [->|Hr24].
    + change (Zdigits2 (2 ^ 24)) with 25. unfold fexp, emin.
      replace (Z.max (25 + E - 24) (3 - 128 - 24) - E) with 1 by lia.
      cbn. reflexivity.
    + destruct r as [|p|p]; try lia.
      cbn [Zdigits2]. rewrite digits2_pos_log2. unfold fexp, emin.
      assert (Z.log2 (Zpos p) < 24).
      { apply Z.log2_lt_pow2; lia. }
      destruct (Z.max (Z.log2 (Z.pos p) + 1 + E - 24) (3 - 128 - 24) - E) eqn:En; try lia.
      * cbn. reflexivity.
      * cbn. reflexivity.
Qed.

(** [binary_round_aux] on a positive mantissa whose exponent is at or
    below the exponent of the format computes [rounded]. *)
Lemma round_aux_rounded (m : positive) (e : Z) :
  0 <= E_of (Zpos m) e - e ->
  binary_round_aux 24 128 false (Zpos m) e loc_Exact = rounded (Zpos m) e.
Proof.
  intros Hn. unfold binary_round_aux.
  pose proof (rne_lt_pow (Zpos m) e ltac:(lia) Hn) as Hub.
  pose proof (rne_bounds (Zpos m) (E_of (Zpos m) e - e) ltac:(lia) Hn) as [Hlb _].
  assert (Hq : 0 <= Zpos m / 2 ^ (E_of (Zpos m) e - e)).
  { apply Z.div_pos; [lia|apply Z.pow_pos_nonneg; lia]. }
  assert (HE : -149 <= E_of (Zpos m) e) by (unfold E_of; lia).
  unfold shr_fexp at 1. rewrite fexp_E. cbn [shr_record_of_loc].
  destruct (E_of (Zpos m) e - e) as [|n|n] eqn:En; [| |lia].
  - cbn [shr shr_m loc_of_shr_record round_nearest_even].
    rewrite rne_exact in Hub.
    replace e with (E_of (Zpos m) e) at 1 by lia.
    rewrite (second_stage (Zpos m) (E_of (Zpos m) e)) by lia.
    unfold rounded. rewrite En, rne_exact. reflexivity.
  - pose proof (shr_rne (Zpos m) e n ltac:(lia)) as [Hround He].
    destruct (shr _ e (Zpos n)) as [mrs e'] eqn:Es.
    cbn [fst snd] in Hround, He. rewrite Hround, He.
    replace (e + Zpos n) with (E_of (Zpos m) e) by lia.
    rewrite second_stage by lia.
    unfold rounded. rewrite En. reflexivity.
Qed.

(** ** Rounding is monotone

    Rounding sees the value only: trailing zero bits change nothing. *)
Lemma rne_scale (m n k : Z) :
  0 <= n -> 0 <= k -> rne (2 ^ k * m) (n + k) = rne m n.
Proof.
  intros Hn Hk. unfold rne.
  pose proof (Z.pow_pos_nonneg 2 k ltac:(lia) Hk) as Hpk.
  pose proof (Z.pow_pos_nonneg 2 n ltac:(lia) Hn) as Hpn.
  rewrite (Z.add_comm n k), Z.pow_add_r by lia.
  rewrite Z.div_mul_cancel_l by lia.
  rewrite Z.mul_mod_distr_l by lia.
  set (q := m / 2 ^ n). set (rem := m mod 2 ^ n).
  destruct (Z.ltb_spec (2 * rem) (2 ^ n));
    destruct (Z.ltb_spec (2 * (2 ^ k * rem)) (2 ^ k * 2 ^ n)); try nia; try reflexivity.
  destruct (Z.eqb_spec (2 * rem) (2 ^ n));
    destruct (Z.eqb_spec (2 * (2 ^ k * rem)) (2 ^ k * 2 ^ n)); try nia; reflexivity.
Qed.

(** At a fixed shift, [rne] is monotone in the mantissa. *)
Lemma rne_mono (m1 m2 n : Z) :
  0 <= n -> 0 <= m1 <= m2 -> rne m1 n <= rne m2 n.
Proof.
  intros Hn Hm.
  pose proof (Z.pow_pos_nonneg 2 n ltac:(lia) Hn) as Hpn.
  pose proof (Z.div_le_mono m1 m2 (2 ^ n) Hpn ltac:(lia)) as Hq.
  pose proof (rne_bounds m1 n ltac:(lia) Hn).
  pose proof (rne_bounds m2 n ltac:(lia) Hn).
  destruct (Z.eq_dec (m1 / 2 ^ n) (m2 / 2 ^ n)) as [Heq|Hne]; [|lia].
  pose proof (Z.div_mod m1 (2 ^ n) ltac:(lia)) as D1.
  pose proof (Z.div_mod m2 (2 ^ n) ltac:(lia)) as D2.
  assert (Hrem : m1 mod 2 ^ n <= m2 mod 2 ^ n) by nia.
  unfold rne. rewrite Heq.
  set (q := m2 / 2 ^ n) in *. set (r1 := m1 mod 2 ^ n) in *. set (r2 := m2 mod 2 ^ n) in *.
  destruct (Z.ltb_spec (2 * r1) (2 ^ n)); destruct (Z.ltb_spec (2 * r2) (2 ^ n));
    destruct (Z.eqb_spec (2 * r1) (2 ^ n)); destruct (Z.eqb_spec (2 * r2) (2 ^ n));
    destruct (Z.even q); lia.
Qed.

Lemma pos_compare_cont (a b : positive) :
  Pos.compare_cont Eq a b = (Zpos a ?= Zpos b).
Proof. reflexivity. Qed.

(** Floats compare as their ranks. *)
Lemma finish_leb (r1 E1 r2 E2 : Z) :
  well_formed r1 E1 -> well_formed r2 E2 ->
  key r1 E1 <= key r2 E2 ->
  SFleb (finish r1 E1) (finish r2 E2) = true.
Proof.
  unfold well_formed, key, finish, SFleb. intros (Hr1 & HE1 & Hn1) (Hr2 & HE2 & Hn2) Hkey.
  change (2 ^ 24) with 16777216 in *. change (2 ^ 23) with 8388608 in *.
  destruct (Z.eqb_spec r1 0) as [Z1|Z1]; destruct (Z.eqb_spec r2 0) as [Z2|Z2].
  - reflexivity.
  - destruct (Z.eqb_spec r2 16777216); [destruct (E2 + 1 <=? 104)|destruct (E2 <=? 104)]; reflexivity.
  - exfalso. lia.
  - destruct (Z.eqb_spec r1 16777216) as [T1|T1]; destruct (Z.eqb_spec r2 16777216) as [T2|T2];
    repeat match goal with
    | |- context [?a <=? ?b] => destruct (Z.leb_spec a b)
    end; cbn [SFcompare]; try reflexivity; try (exfalso; lia).
    all: repeat match goal with
    | |- context [?a ?= ?b] => destruct (Z.compare_spec a b)
    | |- context [Pos.compare_cont Eq ?a ?b] => rewrite (pos_compare_cont a b)
    end; try reflexivity; try (exfalso; lia).
    all: try (rewrite !Z2Pos.id in * by lia; exfalso; lia).
Qed.

Lemma E_of_scale (m e k : Z) :
  0 < m -> 0 <= k -> E_of (2 ^ k * m) (e - k) = E_of m e.
Proof.
  intros Hm Hk. unfold E_of.
  rewrite (Z.mul_comm (2 ^ k) m), Z.log2_mul_pow2 by lia. lia.
Qed.

Lemma rounded_scale (m e k : Z) :
  0 < m -> 0 <= k -> 0 <= E_of m e - e ->
  rounded (2 ^ k * m) (e - k) = rounded m e.
Proof.
  intros Hm Hk Hn. unfold rounded.
  rewrite E_of_scale by lia.
  replace (E_of m e - (e - k)) with (E_of m e - e + k) by lia.
  rewrite rne_scale by lia. reflexivity.
Qed.

(** A rounded mantissa is subnormal at the least exponent and has 24
    bits above it. *)
Lemma rne_well_formed (m e : Z) :
  0 < m -> 0 <= E_of m e - e ->
  well_formed (rne m (E_of m e - e)) (E_of m e).
Proof.
  intros Hm Hn.
  pose proof (rne_lt_pow m e Hm Hn) as Hub.
  pose proof (rne_bounds m (E_of m e - e) ltac:(lia) Hn) as [Hlb _].
  pose proof (Z.pow_pos_nonneg 2 (E_of m e - e) ltac:(lia) Hn) as Hp.
  assert (Hq : 0 <= m / 2 ^ (E_of m e - e)) by (apply Z.div_pos; lia).
  split; [lia|]. split; [unfold E_of; lia|].
  intros HE.
  assert (Hshift : E_of m e - e = Z.log2 m - 23) by (unfold E_of in *; lia).
  rewrite Hshift in *.
  pose proof (Z.log2_spec m Hm) as [Hlog _].
  assert (2 ^ 23 <= m / 2 ^ (Z.log2 m - 23)); [|lia].
  apply Z.div_le_lower_bound; [lia|].
  rewrite <- Z.pow_add_r by lia.
  replace (Z.log2 m - 23 + 23) with (Z.log2 m) by lia. exact Hlog.
Qed.

(** The rank of the rounded value is monotone in the mantissa, also
    across binades. *)
Lemma key_mono (m1 m2 e : Z) :
  0 < m1 <= m2 -> 0 <= E_of m1 e - e -> 0 <= E_of m2 e - e ->
  key (rne m1 (E_of m1 e - e)) (E_of m1 e)
  <= key (rne m2 (E_of m2 e - e)) (E_of m2 e).
Proof.
  intros Hm Hn1 Hn2.
  pose proof (rne_well_formed m1 e ltac:(lia) Hn1) as (Hr1 & HE1 & _).
  pose proof (rne_well_formed m2 e ltac:(lia) Hn2) as (Hr2 & HE2 & Hnorm2).
  assert (HE : E_of m1 e <= E_of m2 e).
  { unfold E_of. pose proof (Z.log2_le_mono m1 m2 ltac:(lia)). lia. }
  unfold key. change (2 ^ 24) with 16777216 in *. change (2 ^ 23) with 8388608 in *.
  destruct (Z.eq_dec (E_of m1 e) (E_of m2 e)) as [Heq|Hne].
  - rewrite Heq. pose proof (rne_mono m1 m2 (E_of m2 e - e) Hn2 ltac:(lia)). lia.
  - specialize (Hnorm2 ltac:(lia)). nia.
Qed.

Lemma rounded_mono (m1 m2 e : Z) :
  0 < m1 <= m2 -> 0 <= E_of m1 e - e -> 0 <= E_of m2 e - e ->
  SFleb (rounded m1 e) (rounded m2 e) = true.
Proof.
  intros Hm Hn1 Hn2. unfold rounded. fold (finish (rne m1 (E_of m1 e - e)) (E_of m1 e)).
  fold (finish (rne m2 (E_of m2 e - e)) (E_of m2 e)).
  apply finish_leb.
  - apply rne_well_formed; lia.
  - apply rne_well_formed; lia.
  - now apply key_mono.
Qed.

(** [Pos.iter xO] is a shift to the left. *)
Lemma iter_xO (m d : positive) :
  Zpos (Pos.iter xO m d) = Zpos m * 2 ^ Zpos d.
Proof.
  induction d as [|d IH] using Pos.peano_ind.
  - cbn [Pos.iter]. rewrite Pos2Z.inj_xO. lia.
  - rewrite Pos.iter_succ, Pos2Z.inj_xO, IH, Pos2Z.inj_succ, Z.pow_succ_r by lia. lia.
Qed.

Lemma shl_align_spec (m : positive) (e e' : Z) :
  e' <= e ->
  Zpos (fst (shl_align m e e')) = Zpos m * 2 ^ (e - e') /\
  snd (shl_align m e e') = e'.
Proof.
  intros He. unfold shl_align.
  destruct (e' - e) as [|d|d] eqn:Ed; cbn [fst snd].
  - replace (e - e') with 0 by lia. split; lia.
  - lia.
  - rewrite iter_xO. replace (e - e') with (Zpos d) by lia. split; reflexivity.
Qed.

Lemma shl_align_none (m : positive) (e e' : Z) :
  e <= e' -> shl_align m e e' = (m, e).
Proof.
  intros He. unfold shl_align. destruct (e' - e) eqn:Ed; try reflexivity; lia.
Qed.

(** ** The operations of the smoothing segment length

    A canonical float has the exponent of the format for its value. *)
Lemma valid_finite (s : bool) (m : positive) (e : Z) :
  valid_binary 24 128 (S754_finite s m e) = true ->
  E_of (Zpos m) e = e /\ e <= 104.
Proof.
  unfold valid_binary, bounded, canonical_mantissa. intros H.
  apply andb_true_iff in H as [Hc He].
  apply Z.eqb_eq in Hc. apply Z.leb_le in He.
  change (Zpos (digits2_pos m)) with (Zdigits2 (Zpos m)) in Hc.
  rewrite fexp_E in Hc. split; [exact Hc|lia].
Qed.

(** [1.0f + xi], for a smoothness in (0, 1]: the sum [2^(-e) + m] at the
    exponent of [xi], rounded to the binade of 1. *)
Lemma add_one (m : positive) (e : Z) :
  valid_binary 24 128 (S754_finite false m e) = true ->
  e <= -23 -> Zpos m <= 2 ^ (- e) ->
  SFadd 24 128 one (S754_finite false m e)
  = finish (rne (2 ^ (- e) + Zpos m) (-23 - e)) (-23).
Proof.
  intros Hv He Hm. apply valid_finite in Hv as [Hcanon _].
  unfold one, SFadd. cbn [cond_Zopp].
  replace (Z.min (-23) e) with e by lia.
  pose proof (shl_align_spec 8388608 (-23) e He) as [Hone _].
  rewrite (shl_align_none m e e) by lia. cbn [fst].
  set (a := fst (shl_align 8388608 (-23) e)) in *.
  change (Zpos a + Zpos m) with (Zpos (a + m)).
  unfold binary_normalize, binary_round.
  pose proof (Z.pow_pos_nonneg 2 (- e) ltac:(lia) ltac:(lia)) as Hp.
  assert (Hs : Zpos (a + m) = 2 ^ (- e) + Zpos m).
  { rewrite Pos2Z.inj_add, Hone. change (Zpos 8388608) with (2 ^ 23).
    rewrite <- Z.pow_add_r by lia. f_equal. f_equal. lia. }
  set (s := (a + m)%positive) in *.
  change (Zpos (digits2_pos s)) with (Zdigits2 (Zpos s)).
  rewrite (fexp_E s e).
  assert (Hlog : - e <= Z.log2 (Zpos s)) by (apply Z.log2_le_pow2; lia).
  assert (HE : e <= E_of (Zpos s) e) by (unfold E_of; lia).
  rewrite (shl_align_none s e _ HE).
  rewrite (round_aux_rounded s e) by lia.
  rewrite Hs in *. clearbody s a.
  unfold rounded.
  destruct (Z.eq_dec (Zpos m) (2 ^ (- e))) as [Heq|Hne].
  - (* the float is 1.0 *)
    assert (He23 : e = -23).
    { unfold E_of in Hcanon. rewrite Heq, Z.log2_pow2 in Hcanon by lia. lia. }
    subst e. rewrite Heq. vm_compute. reflexivity.
  - assert (Hlog2 : Z.log2 (2 ^ (- e) + Zpos m) = - e).
    { apply Z.log2_unique; [lia|].
      replace (Z.succ (- e)) with (1 + - e) by lia.
      rewrite Z.pow_add_r by lia. lia. }
    assert (HE23 : E_of (2 ^ (- e) + Zpos m) e = -23) by (unfold E_of; lia).
    rewrite HE23. reflexivity.
Qed.

Lemma shift_ok (m e : Z) : 2 ^ 23 <= m -> 0 <= E_of m e - e.
Proof.
  intros Hm. pose proof (Z.log2_le_pow2 m 23 ltac:(lia)) as Hl.
  unfold E_of. lia.
Qed.

(** The product of such a sum with a positive finite radius. *)
Lemma mul_finish (r : Z) (mR : positive) (eR : Z) :
  2 ^ 23 <= r <= 2 ^ 24 ->
  SFmul 24 128 (finish r (-23)) (S754_finite false mR eR)
  = rounded (r * Zpos mR) (eR - 23).
Proof.
  intros Hr. unfold finish.
  change (2 ^ 24) with 16777216 in *. change (2 ^ 23) with 8388608 in *.
  destruct (Z.eqb_spec r 0) as [|_]; [lia|].
  destruct (Z.eqb_spec r 16777216) as [->|Hne].
  - change (-23 + 1) with (-22). change (-22 <=? 104) with true. cbn iota.
    change (2 ^ 23)%positive with 8388608%positive.
    cbn [SFmul xorb].
    rewrite round_aux_rounded by (apply shift_ok; change (2 ^ 23) with 8388608; lia).
    rewrite Pos2Z.inj_mul.
    rewrite <- (rounded_scale (Zpos 8388608 * Zpos mR) (-22 + eR) 1)
      by (try apply shift_ok; change (2 ^ 23) with 8388608; lia).
    f_equal; lia.
  - change (-23 <=? 104) with true. cbn iota. cbn [SFmul xorb].
    rewrite round_aux_rounded
      by (apply shift_ok; rewrite Pos2Z.inj_mul, Z2Pos.id by lia;
          change (2 ^ 23) with 8388608; nia).
    rewrite Pos2Z.inj_mul, Z2Pos.id by lia. f_equal. lia.
Qed.

Lemma finish_shape (r : Z) :
  2 ^ 23 <= r <= 2 ^ 24 ->
  exists m e, finish r (-23) = S754_finite false m e.
Proof.
  intros Hr. unfold finish.
  change (2 ^ 24) with 16777216 in *. change (2 ^ 23) with 8388608 in *.
  destruct (Z.eqb_spec r 0); [lia|].
  destruct (Z.eqb_spec r 16777216); cbn; eauto.
Qed.

(** What the checks on the smoothness say of its representation. *)
Lemma smoothness_shape (xi : spec_float) :
  valid_binary 24 128 xi = true ->
  SFltb zero xi = true -> SFleb xi one = true ->
  exists m e, xi = S754_finite false m e /\ e <= -23 /\ Zpos m <= 2 ^ (- e).
Proof.
  intros Hv Hpos Hle.
  destruct xi as [s|s| |s m e]; try discriminate Hpos.
  - destruct s; discriminate.
  - destruct s; [discriminate Hpos|].
    exists m, e. split; [reflexivity|].
    apply valid_finite in Hv as [Hcanon _].
    unfold SFleb, one in Hle. cbn [SFcompare] in Hle.
    rewrite pos_compare_cont in Hle.
    pose proof (Z.log2_spec (Zpos m) ltac:(lia)) as [Hlo Hhi].
    unfold E_of in Hcanon.
    destruct (Z.compare_spec e (-23)) as [He|He|He]; [| |discriminate Hle].
    + subst e. split; [lia|].
      destruct (Z.compare_spec (Zpos m) (Zpos 8388608)); try discriminate Hle;
        change (2 ^ (- -23)) with 8388608; lia.
    + split; [lia|].
      assert (Hl : Z.log2 (Zpos m) <= 23) by lia.
      eapply Z.le_trans; [apply Z.lt_le_incl, Hhi|].
      apply Z.pow_le_mono_r; lia.
Qed.

(** The order of two canonical positive floats is the order of their
    values. *)
Lemma smoothness_order (m1 m2 : positive) (e1 e2 : Z) :
  valid_binary 24 128 (S754_finite false m1 e1) = true ->
  valid_binary 24 128 (S754_finite false m2 e2) = true ->
  SFleb (S754_finite false m1 e1) (S754_finite false m2 e2) = true ->
  e1 <= e2 /\ Zpos m1 <= 2 ^ (e2 - e1) * Zpos m2.
Proof.
  intros Hv1 Hv2 Hle.
  apply valid_finite in Hv1 as [Hc1 _]. apply valid_finite in Hv2 as [Hc2 _].
  unfold SFleb in Hle. cbn [SFcompare] in Hle. rewrite pos_compare_cont in Hle.
  unfold E_of in Hc1, Hc2.
  pose proof (Z.log2_spec (Zpos m1) ltac:(lia)) as [Hlo1 Hhi1].
  pose proof (Z.log2_spec (Zpos m2) ltac:(lia)) as [Hlo2 Hhi2].
  destruct (Z.compare_spec e1 e2) as [He|He|He]; [| |discriminate Hle].
  - subst e2. split; [lia|]. rewrite Z.sub_diag, Z.pow_0_r.
    destruct (Z.compare_spec (Zpos m1) (Zpos m2)); try discriminate Hle; lia.
  - split; [lia|].
    (* m2 is normal: 2^23 <= m2, and m1 < 2^24 *)
    assert (Hl2 : Z.log2 (Zpos m2) = 23) by lia.
    assert (Hl1 : Z.log2 (Zpos m1) <= 23) by lia.
    rewrite Hl2 in Hlo2.
    assert (Hm1 : Zpos m1 < 2 ^ 24).
    { eapply Z.lt_le_trans; [exact Hhi1|]. apply Z.pow_le_mono_r; lia. }
    assert (Hpow : 2 ^ 1 <= 2 ^ (e2 - e1)) by (apply Z.pow_le_mono_r; lia).
    change (2 ^ 24) with 16777216 in *. change (2 ^ 23) with 8388608 in *.
    change (2 ^ 1) with 2 in *. nia.
Qed.

(** [(1.0f + xi) * radius] does not decrease when [xi] grows within
    (0, 1], for a radius that passes its check (positive, finite or
    infinite). *)
Theorem smoothing_length_monotone (xi1 xi2 radius : spec_float) :
  valid_binary 24 128 xi1 = true ->
  valid_binary 24 128 xi2 = true ->
  valid_binary 24 128 radius = true ->
  SFltb zero xi1 = true ->
  SFleb xi1 xi2 = true ->
  SFleb xi2 one = true ->
  SFltb zero radius = true ->
  SFleb (SFmul 24 128 (SFadd 24 128 one xi1) radius)
        (SFmul 24 128 (SFadd 24 128 one xi2) radius) = true.
Proof.
  intros Hv1 Hv2 HvR Hpos1 Hle12 Hle2 HposR.
  assert (Hpos2 : SFltb zero xi2 = true).
  { destruct xi1 as [[]|[]| |[] m1 e1], xi2 as [[]|[]| |[] m2 e2];
      try discriminate Hpos1; try discriminate Hle12; reflexivity. }
  assert (Hle1 : SFleb xi1 one = true).
  { destruct (smoothness_shape xi2 Hv2 Hpos2 Hle2) as (m2 & e2 & -> & He2 & Hm2).
    destruct xi1 as [[]|[]| |[] m1 e1];
      try discriminate Hpos1; try discriminate Hle12.
    destruct (smoothness_order m1 m2 e1 e2 Hv1 Hv2 Hle12) as [He Hm].
    apply valid_finite in Hv1 as [Hc1 _]. unfold E_of in Hc1.
    pose proof (Z.log2_spec (Zpos m1) ltac:(lia)) as [Hlo1 Hhi1].
    unfold SFleb, one. cbn [SFcompare]. rewrite pos_compare_cont.
    destruct (Z.compare_spec e1 (-23)) as [E|E|E]; [|reflexivity|lia].
    subst e1. assert (e2 = -23) by lia. subst e2.
    change (2 ^ (-23 - -23)) with 1 in Hm. change (2 ^ (- -23)) with 8388608 in Hm2.
    destruct (Z.compare_spec (Zpos m1) (Zpos 8388608)); try reflexivity. lia. }
  destruct (smoothness_shape xi1 Hv1 Hpos1 Hle1) as (m1 & e1 & -> & He1 & Hm1).
  destruct (smoothness_shape xi2 Hv2 Hpos2 Hle2) as (m2 & e2 & -> & He2 & Hm2).
  destruct (smoothness_order m1 m2 e1 e2 Hv1 Hv2 Hle12) as [He Hm].
  rewrite (add_one m1 e1 Hv1 He1 Hm1), (add_one m2 e2 Hv2 He2 Hm2).
  set (r1 := rne (2 ^ (- e1) + Zpos m1) (-23 - e1)).
  set (r2 := rne (2 ^ (- e2) + Zpos m2) (-23 - e2)).
  pose proof (Z.pow_pos_nonneg 2 (- e1) ltac:(lia) ltac:(lia)) as Hp1.
  pose proof (Z.pow_pos_nonneg 2 (- e2) ltac:(lia) ltac:(lia)) as Hp2.
  pose proof (Z.pow_pos_nonneg 2 (e2 - e1) ltac:(lia) ltac:(lia)) as Hpk.
  assert (Hr12 : r1 <= r2).
  { unfold r1, r2.
    rewrite <- (rne_scale (2 ^ (- e2) + Zpos m2) (-23 - e2) (e2 - e1)) by lia.
    replace (-23 - e2 + (e2 - e1)) with (-23 - e1) by lia.
    apply rne_mono; [lia|].
    rewrite Z.mul_add_distr_l, <- Z.pow_add_r by lia.
    replace (e2 - e1 + - e2) with (- e1) by lia. lia. }
  assert (Hbounds : forall m e, e <= -23 -> 0 < Zpos m <= 2 ^ (- e) ->
            2 ^ 23 <= rne (2 ^ (- e) + Zpos m) (-23 - e) <= 2 ^ 24).
  { intros m e He' Hm'.
    pose proof (Z.pow_pos_nonneg 2 (- e) ltac:(lia) ltac:(lia)) as Hp.
    pose proof (Z.pow_pos_nonneg 2 (-23 - e) ltac:(lia) ltac:(lia)) as Hpn.
    assert (Hsplit : 2 ^ (- e) = 2 ^ 23 * 2 ^ (-23 - e)).
    { rewrite <- Z.pow_add_r by lia. f_equal. lia. }
    split.
    - pose proof (rne_bounds (2 ^ (- e) + Zpos m) (-23 - e) ltac:(lia) ltac:(lia)) as [Hlb _].
      assert (2 ^ 23 <= (2 ^ (- e) + Zpos m) / 2 ^ (-23 - e)); [|lia].
      apply Z.div_le_lower_bound; lia.
    - replace (2 ^ 24) with (rne (2 ^ (- e) + 2 ^ (- e)) (-23 - e)).
      + apply rne_mono; lia.
      + replace (2 ^ (- e) + 2 ^ (- e)) with (2 ^ (-23 - e) * 2 ^ 24).
        * rewrite <- (Z.add_0_l (-23 - e)) at 2. rewrite rne_scale by lia.
          apply rne_exact.
        * rewrite Hsplit. change (2 ^ 24) with (2 * 2 ^ 23). lia. }
  pose proof (Hbounds m1 e1 He1 ltac:(lia)) as Hb1.
  pose proof (Hbounds m2 e2 He2 ltac:(lia)) as Hb2.
  fold r1 in Hb1. fold r2 in Hb2.
  destruct radius as [[]|[]| |[] mR eR]; try discriminate HposR.
  - destruct (finish_shape r1 Hb1) as (a1 & b1 & ->).
    destruct (finish_shape r2 Hb2) as (a2 & b2 & ->).
    reflexivity.
  - rewrite !mul_finish by assumption.
    change (2 ^ 23) with 8388608 in *.
    apply rounded_mono; try (apply shift_ok; change (2 ^ 23) with 8388608; nia).
    nia.
Qed.

End Binary32Rounding.

(* ===================================================================== *)
(** * Part IV: properties of [CalculateSmoothRoundRect]                  *)
(* ===================================================================== *)

Module SmoothRoundRectProofs.
Import SmoothRoundRect Exact Geometry.

(** ** The shape of the path, in any arithmetic *)

Section Shape.
Context {F : Type} `{FloatOps F}.
Variables x y width height smoothness radius : F.
Local Open Scope float_scope.

Let path : SkPath F := CalculateSmoothRoundRect x y width height smoothness radius.
Let p : F := smoothing_rounding_segment_length smoothness radius.

Lemma path_length : List.length path = 17%nat.
Proof. reflexivity. Qed.

Lemma path_first_point :
  first_point path = Some (Make (x + fconst 0) (y + p)).
Proof. reflexivity. Qed.

Lemma path_last_point :
  last_point path = Some (Make (x - fconst 0) ((y + height) - p)).
Proof. reflexivity. Qed.

Lemma path_ends_with_close : ends_with_close path.
Proof.
  unfold ends_with_close, path, CalculateSmoothRoundRect, close.
  eexists. reflexivity.
Qed.

Lemma path_counts :
  count_commands is_move path = 1%nat /\
  count_commands is_line path = 3%nat /\
  count_commands is_cubic path = 8%nat /\
  count_commands is_arc path = 4%nat /\
  count_commands is_close path = 1%nat.
Proof. repeat split; reflexivity. Qed.

End Shape.

Local Open Scope R_scope.

(** The property of C1 in the words of the specification: first and last
    points coincide, and there are 4 lines, 8 cubics and 4 arcs. *)
Definition closed_with_4_8_4 {F : Type} (path : SkPath F) : Prop :=
  first_point path = last_point path /\
  count_commands is_line path = 4%nat /\
  count_commands is_cubic path = 8%nat /\
  count_commands is_arc path = 4%nat.

(** C1, as stated, fails on the scenario of the specification (x = 0,
    y = 0, width = 100, height = 60, smoothness = 1, radius = 10, where
    p = 20 and the rectangle holds the corners): the input passes the
    checks, the path has three line commands, and its last point (0, 40)
    is not its first point (0, 20). *)
Lemma C1_counterexample :
  let path := CalculateSmoothRoundRect (F := R) 0 0 100 60 1 10 in
  dchecks_pass (F := R) 100 60 1 10 /\
  count_commands is_line path = 3%nat /\
  first_point path <> last_point path /\
  ~ closed_with_4_8_4 path.
Proof.
  intros path.
  pose proof (path_counts (F := R) 0 0 100 60 1 10) as (_ & H3 & _).
  split; [|split; [exact H3|split]].
  - unfold dchecks_pass; simpl. repeat split; lra.
  - unfold path. rewrite path_first_point, path_last_point.
    unfold smoothing_rounding_segment_length, rounding_segment_length, Make.
    cbn [fadd fsub fmul fconst Exact.ops].
    intros Heq. injection Heq as _ Hy. lra.
  - intros (_ & Hlines & _). fold path in H3.
    rewrite H3 in Hlines. discriminate Hlines.
Qed.

(** C1 (amended): for every input, the path is one move-to followed by
    three line-to, eight cubic-to and four arc-to commands and ends with a
    close command: 17 commands.  The last point drawn is
    (x, (y + height) - p), the first is (x, y + p), where p is the
    smoothing segment length: the fourth straight edge is the segment
    that [close] adds between them, not a line command. *)
Theorem C1_path_structure {F : Type} `{FloatOps F}
    (x y width height smoothness radius : F) :
  let path := CalculateSmoothRoundRect x y width height smoothness radius in
  let p := smoothing_rounding_segment_length smoothness radius in
  ends_with_close path /\
  first_point path = Some (Make (fadd x (fconst 0%Z)) (fadd y p)) /\
  last_point path = Some (Make (fsub x (fconst 0%Z)) (fsub (fadd y height) p)) /\
  count_commands is_move path = 1%nat /\
  count_commands is_line path = 3%nat /\
  count_commands is_cubic path = 8%nat /\
  count_commands is_arc path = 4%nat /\
  count_commands is_close path = 1%nat /\
  List.length path = 17%nat.
Proof.
  intros path p.
  split; [apply path_ends_with_close|].
  split; [apply path_first_point|].
  split; [apply path_last_point|].
  pose proof (path_counts x y width height smoothness radius)
    as (Hm & Hl & Hc & Ha & Hz).
  repeat split; assumption || reflexivity.
Qed.

(** ** The scenario of the specification *)

(** C2: for x = 0, y = 0, width = 100, height = 60, radius = 10 and
    smoothness = 1.0 the first move-to point is (0, 20), and 20 is the
    edge connecting offset (1 + 1) * 10: bit for bit in binary32,
    whatever the maths library returns, and in exact arithmetic. *)
Theorem C2_first_move_to :
  (forall lm : Binary32.MathLibrary,
     let ops := Binary32.ops lm in
     first_point
       (CalculateSmoothRoundRect (Binary32.of_Z 0%Z) (Binary32.of_Z 0%Z)
          (Binary32.of_Z 100%Z) (Binary32.of_Z 60%Z)
          (Binary32.of_Z 1%Z) (Binary32.of_Z 10%Z))
     = Some (Make (Binary32.of_Z 0%Z) (Binary32.of_Z 20%Z)) /\
     edge_connecting_offset (Binary32.of_Z 1%Z) (Binary32.of_Z 10%Z)
     = Binary32.of_Z 20%Z /\
     fmul (fadd (Binary32.of_Z 1%Z) (Binary32.of_Z 1%Z)) (Binary32.of_Z 10%Z)
     = Binary32.of_Z 20%Z) /\
  (first_point (CalculateSmoothRoundRect (F := R) 0 0 100 60 1 10)
   = Some (Make 0 20) /\
   edge_connecting_offset (F := R) 1 10 = (1 + 1) * 10).
Proof.
  split.
  - intros lm ops. repeat split; vm_compute; reflexivity.
  - split.
    + rewrite path_first_point.
      unfold smoothing_rounding_segment_length, rounding_segment_length, Make.
      simpl. do 2 f_equal; lra.
    + reflexivity.
Qed.

(** ** The formulas of the calculation *)

(** C3: the edge curve offset is p - (p - arc_curve_offset) * (2/3), with
    p the smoothed segment length, in the arithmetic of the code; the
    ratio is the quotient of the literals 2 and 3: in exact arithmetic
    the fraction 2/3, which gives the formula of the design, and in
    binary32 the float next to it, 11184811 * 2^-24. *)
Theorem C3_edge_curve_offset :
  (forall (F : Type) (ops : FloatOps F) (smoothness radius : F),
     let p := smoothing_rounding_segment_length smoothness radius in
     edge_curve_offset smoothness radius
     = fsub p (fmul (fsub p (arc_curve_offset smoothness radius))
                    (fdiv (fconst 2%Z) (fconst 3%Z)))) /\
  (forall smoothness radius : R,
     edge_curve_offset smoothness radius
     = Design.edge_offset
         (smoothing_rounding_segment_length smoothness radius)
         (arc_curve_offset smoothness radius)) /\
  EDGE_CURVE_POINT_RATIO (F := R) = (2 / 3)%R /\
  (forall lm : Binary32.MathLibrary,
     EDGE_CURVE_POINT_RATIO (H := Binary32.ops lm)
     = S754_finite false 11184811 (-24)).
Proof.
  split; [reflexivity|]. split; [|split; [reflexivity|]].
  - intros smoothness radius. reflexivity.
  - intros lm. vm_compute. reflexivity.
Qed.

(** C4: with alpha = (pi/4) * xi, the arc-connecting vector is
    R * (1 - sin alpha, 1 - cos alpha) and the arc curve offset is
    arc_connecting_vector.x + R * tan (alpha/2) * cos alpha: as the
    operations of the code in any arithmetic, and as the formulas of the
    design in exact arithmetic.  In binary32 the constant pi/4 is the
    float 13176795 * 2^-24. *)
Theorem C4_arc_connecting_geometry :
  (forall (F : Type) (ops : FloatOps F) (smoothness radius : F),
     let alpha := arc_connecting_angle smoothness in
     alpha = fmul PI_DIV_4 smoothness /\
     arc_connecting_vector smoothness radius
     = Make (fmul (fsub (fconst 1%Z) (fsin alpha)) radius)
            (fmul (fsub (fconst 1%Z) (fcos alpha)) radius) /\
     arc_curve_offset smoothness radius
     = fadd (fX (arc_connecting_vector smoothness radius))
            (fmul (fmul (ftan (fdiv alpha (fconst 2%Z))) (fcos alpha)) radius)) /\
  (forall smoothness radius : R,
     let alpha := arc_connecting_angle smoothness in
     alpha = Design.connecting_angle smoothness /\
     (fX (arc_connecting_vector smoothness radius),
      fY (arc_connecting_vector smoothness radius))
     = Design.connecting_vector alpha radius /\
     arc_curve_offset smoothness radius = Design.arc_offset alpha radius) /\
  (forall lm : Binary32.MathLibrary,
     PI_DIV_4 (H := Binary32.ops lm) = S754_finite false 13176795 (-24)).
Proof.
  split; [|split].
  - intros F ops smoothness radius alpha. repeat split; reflexivity.
  - intros smoothness radius alpha. split; [reflexivity|]. split.
    + unfold Design.connecting_vector, arc_connecting_vector, pscale, Make.
      cbn [fX fY fsub fmul fsin fcos fconst Exact.ops]. subst alpha.
      apply pair_equal_spec; split; ring.
    + unfold Design.arc_offset, Design.connecting_vector, arc_curve_offset,
        arc_curve_offset_from_connecting, arc_connecting_vector, pscale, Make.
      cbn [fX fY fst fsub fmul fadd fdiv fsin fcos ftan fconst Exact.ops].
      subst alpha. ring.
  - intros lm. vm_compute. reflexivity.
Qed.

(** C5: the rounding segment length q is the radius R, which is what
    q = R * sqrt ((1 + cos theta) / (1 - cos theta)) gives at a corner of
    90 degrees, and the smoothed segment length is p = (1 + xi) * q. *)
Theorem C5_segment_lengths :
  (forall (F : Type) (ops : FloatOps F) (smoothness radius : F),
     rounding_segment_length radius = radius /\
     smoothing_rounding_segment_length smoothness radius
     = fmul (fadd (fconst 1%Z) smoothness) (rounding_segment_length radius)) /\
  (forall smoothness radius : R,
     rounding_segment_length radius
     = Design.rounding_length_at (PI / 2) radius /\
     smoothing_rounding_segment_length smoothness radius
     = Design.smoothed_length smoothness (rounding_segment_length radius)).
Proof.
  split.
  - intros F ops smoothness radius. split; reflexivity.
  - intros smoothness radius. split; [|reflexivity].
    unfold Design.rounding_length_at, rounding_segment_length.
    rewrite cos_PI2.
    replace ((1 + 0) / (1 - 0))%R with 1%R by (field; lra).
    rewrite sqrt_1. ring.
Qed.

(** ** Monotonicity in the smoothness *)

Lemma bezier3_between (lo hi a b c d t : R) :
  0 <= t <= 1 -> lo <= a <= hi -> lo <= b <= hi -> lo <= c <= hi -> lo <= d <= hi ->
  lo <= bezier3 a b c d t <= hi.
Proof.
  intros Ht Ha Hb Hc Hd. unfold bezier3.
  assert (H0 : 0 <= (1 - t) ^ 3) by (apply pow_le; lra).
  assert (H1 : 0 <= 3 * (1 - t) ^ 2 * t).
  { apply Rmult_le_pos; [apply Rmult_le_pos; [lra|apply pow_le; lra]|lra]. }
  assert (H2 : 0 <= 3 * (1 - t) * t ^ 2).
  { apply Rmult_le_pos; [apply Rmult_le_pos; lra|apply pow_le; lra]. }
  assert (H3 : 0 <= t ^ 3) by (apply pow_le; lra).
  assert (Hsum : (1 - t) ^ 3 + 3 * (1 - t) ^ 2 * t + 3 * (1 - t) * t ^ 2 + t ^ 3 = 1) by ring.
  set (w0 := (1 - t) ^ 3) in *. set (w1 := 3 * (1 - t) ^ 2 * t) in *.
  set (w2 := 3 * (1 - t) * t ^ 2) in *. set (w3 := t ^ 3) in *.
  split; nra.
Qed.

Lemma square_le (u m : R) : - m <= u <= m -> u ^ 2 <= m ^ 2.
Proof. intros H. nra. Qed.

Lemma bezier3_start (a b c d : R) : bezier3 a b c d 0 = a.
Proof. unfold bezier3. ring. Qed.
Lemma bezier3_end (a b c d : R) : bezier3 a b c d 1 = d.
Proof. unfold bezier3. ring. Qed.

Lemma deviation_in_box (centre p : SkPoint R) (r1 r2 radius : R) :
  - r1 <= fX p - fX centre <= r1 -> - r2 <= fY p - fY centre <= r2 ->
  deviation centre radius p <= sqrt (r1 ^ 2 + r2 ^ 2) - radius.
Proof.
  intros Hx Hy. unfold deviation, distance.
  apply Rplus_le_compat_r, sqrt_le_1_alt.
  pose proof (square_le _ _ Hx). pose proof (square_le _ _ Hy). lra.
Qed.

Lemma max_deviation_box (centre a c1 c2 b : SkPoint R) (r1 r2 radius : R) :
  in_box centre r1 r2 a -> in_box centre r1 r2 c1 ->
  in_box centre r1 r2 c2 -> in_box centre r1 r2 b ->
  at_corner centre r1 r2 a \/ at_corner centre r1 r2 b ->
  max_deviation centre radius (CubicSegment a c1 c2 b)
    (sqrt (r1 ^ 2 + r2 ^ 2) - radius).
Proof.
  intros [Hax Hay] [H1x H1y] [H2x H2y] [Hbx Hby] Hcorner. split.
  - destruct Hcorner as [Hc|Hc]; [exists 0|exists 1]; (split; [lra|]);
      unfold deviation, distance, cubic_point; cbn [fX fY];
      rewrite ?bezier3_start, ?bezier3_end; now rewrite Hc.
  - intros t Ht. apply deviation_in_box; unfold cubic_point; cbn [fX fY].
    + assert (Hb : fX centre - r1 <= bezier3 (fX a) (fX c1) (fX c2) (fX b) t <= fX centre + r1)
        by (apply bezier3_between; lra).
      lra.
    + assert (Hb : fY centre - r2 <= bezier3 (fY a) (fY c1) (fY c2) (fY b) t <= fY centre + r2)
        by (apply bezier3_between; lra).
      lra.
Qed.

Lemma corner_deviation_box (xi radius : R) :
  0 <= radius ->
  sqrt (radius ^ 2 + (xi * radius) ^ 2) - radius = corner_deviation xi radius.
Proof.
  intros Hr. unfold corner_deviation.
  replace (radius ^ 2 + (xi * radius) ^ 2) with ((radius * radius) * (1 + xi ^ 2)) by ring.
  rewrite sqrt_mult_alt by nra. rewrite sqrt_square by lra. ring.
Qed.
Lemma corner_deviation_box' (xi radius : R) :
  0 <= radius ->
  sqrt ((xi * radius) ^ 2 + radius ^ 2) - radius = corner_deviation xi radius.
Proof. intros Hr. rewrite Rplus_comm. now apply corner_deviation_box. Qed.

(** The offsets of the calculation, for a smoothness in (0, 1] and a
    positive radius. *)
Section Offsets.
Variables xi radius : R.
Hypothesis Hxi : 0 < xi <= 1.
Hypothesis Hr : 0 < radius.
Let alpha := arc_connecting_angle xi.
Let p := smoothing_rounding_segment_length xi radius.
Let e := edge_curve_offset xi radius.
Let a := arc_curve_offset xi radius.
Let vx := fX (arc_connecting_vector xi radius).
Let vy := fY (arc_connecting_vector xi radius).

Lemma alpha_range : 0 < alpha <= PI / 4 /\ alpha <= xi.
Proof.
  unfold alpha, arc_connecting_angle, PI_DIV_4. cbn [fmul pi_div_4_as_float Exact.ops].
  pose proof PI_RGT_0. pose proof PI_4. split; [split|]; nra.
Qed.

Lemma sin_alpha_range : 0 <= sin alpha <= xi.
Proof.
  destruct alpha_range as [[H0 H1] H2]. pose proof PI_RGT_0. split.
  - apply sin_ge_0; lra.
  - pose proof (sin_lt_x alpha H0). lra.
Qed.

Lemma cos_alpha_range : 0 <= cos alpha <= 1.
Proof.
  destruct alpha_range as [[H0 H1] H2]. pose proof PI_RGT_0. split.
  - apply cos_ge_0; lra.
  - apply COS_bound.
Qed.

Lemma tan_half_range : 0 <= tan (alpha / 2) * cos alpha <= sin alpha.
Proof.
  destruct alpha_range as [[H0 H1] H2]. pose proof PI_RGT_0.
  destruct cos_alpha_range as [Hc0 Hc1].
  assert (Hch : 0 < cos (alpha / 2)) by (apply cos_gt_0; lra).
  assert (Hsh : 0 <= sin (alpha / 2)) by (apply sin_ge_0; lra).
  assert (Ht : 0 <= tan (alpha / 2)).
  { unfold tan. apply Rmult_le_pos; [lra|]. left. now apply Rinv_0_lt_compat. }
  split; [now apply Rmult_le_pos|].
  assert (Hminus : sin (alpha / 2) = sin alpha * cos (alpha / 2) - cos alpha * sin (alpha / 2)).
  { rewrite <- sin_minus. f_equal. lra. }
  unfold tan. 
  apply Rmult_le_reg_r with (cos (alpha / 2)); [lra|].
  replace (sin (alpha / 2) / cos (alpha / 2) * cos alpha * cos (alpha / 2))
    with (cos alpha * sin (alpha / 2)) by (field; lra).
  lra.
Qed.

Lemma offsets :
  p = (1 + xi) * radius /\
  radius - xi * radius <= vx <= radius /\
  0 <= vy <= radius /\
  radius - xi * radius <= a <= radius /\
  radius - xi * radius <= e <= p /\
  (vx - radius) ^ 2 + (vy - radius) ^ 2 = radius ^ 2.
Proof.
  destruct sin_alpha_range as [Hs0 Hs1]. destruct cos_alpha_range as [Hc0 Hc1].
  destruct tan_half_range as [Ht0 Ht1].
  assert (Hp : p = (1 + xi) * radius) by reflexivity.
  assert (Hvx : vx = (1 - sin alpha) * radius) by reflexivity.
  assert (Hvy : vy = (1 - cos alpha) * radius) by reflexivity.
  assert (Ha : a = vx + tan (alpha / 2) * cos alpha * radius) by reflexivity.
  assert (He : e = p - (p - a) * (2 / 3)) by reflexivity.
  assert (Hsc : sin alpha ^ 2 + cos alpha ^ 2 = 1).
  { pose proof (sin2_cos2 alpha) as Hsc. unfold Rsqr in Hsc. lra. }
  split; [exact Hp|].
  assert (Hvxr : radius - xi * radius <= vx <= radius) by (rewrite Hvx; nra).
  assert (Hvyr : 0 <= vy <= radius) by (rewrite Hvy; nra).
  assert (Har : radius - xi * radius <= a <= radius).
  { rewrite Ha, Hvx. split; nra. }
  assert (Her : radius - xi * radius <= e <= p).
  { rewrite He. rewrite Hp in *. split; nra. }
  assert (Hcircle : (vx - radius) ^ 2 + (vy - radius) ^ 2 = radius ^ 2).
  { rewrite Hvx, Hvy.
    replace (((1 - sin alpha) * radius - radius) ^ 2
             + ((1 - cos alpha) * radius - radius) ^ 2)
      with (radius ^ 2 * (sin alpha ^ 2 + cos alpha ^ 2)) by ring.
    rewrite Hsc. ring. }
  tauto.
Qed.
End Offsets.

Ltac box_goals :=
  unfold in_box, at_corner, padd, psub, MakeXPoint, MakeYPoint, Make;
  cbn [fX fY fadd fsub fneg fconst Exact.ops].

Lemma corner_cubics_deviation (x y width height xi radius : R) :
  0 < xi <= 1 -> 0 < radius ->
  let segs := segments (CalculateSmoothRoundRect x y width height xi radius) in
  forall (i : nat) (centre : SkPoint R) (s : Segment R),
    corner_centres x y width height radius !! i = Some centre ->
    segs !! (4 * i)%nat = Some s \/ segs !! (4 * i + 2)%nat = Some s ->
    max_deviation centre radius s (corner_deviation xi radius).
Proof.
  intros Hxi Hr segs i centre s Hcentre Hs.
  destruct (offsets xi radius Hxi Hr) as (Hp & Hvx & Hvy & Ha & He & Hcircle).
  unfold segs, CalculateSmoothRoundRect, segments in Hs.
  cbn [moveTo cubicTo arcTo lineTo close app segments_from] in Hs.
  unfold padd, psub, MakeXPoint, MakeYPoint, Make in Hs.
  cbn [fX fY fadd fsub fneg fconst Exact.ops] in Hs.
  change (edge_connecting_offset xi radius)
    with (smoothing_rounding_segment_length xi radius) in Hs.
  set (p := smoothing_rounding_segment_length xi radius) in *.
  set (e := edge_curve_offset xi radius) in *.
  set (a := arc_curve_offset xi radius) in *.
  set (vx := fX (arc_connecting_vector xi radius)) in *.
  set (vy := fY (arc_connecting_vector xi radius)) in *.
  clearbody p e a vx vy.
  destruct i as [|[|[|[|i]]]]; [..|discriminate Hcentre].
  all: cbn in Hcentre, Hs; injection Hcentre as <-.
  all: destruct Hs as [Hs|Hs]; injection Hs as <-.
  all: first
    [ rewrite <- (corner_deviation_box xi radius) by lra;
      apply max_deviation_box; box_goals;
      solve [ repeat split; lra | left; subst p; ring | right; subst p; ring ]
    | rewrite <- (corner_deviation_box' xi radius) by lra;
      apply max_deviation_box; box_goals;
      solve [ repeat split; lra | left; subst p; ring | right; subst p; ring ] ].
Qed.

Lemma deviation_zero (centre p : SkPoint R) (radius : R) :
  0 <= radius ->
  (fX p - fX centre) ^ 2 + (fY p - fY centre) ^ 2 = radius * radius ->
  deviation centre radius p = 0.
Proof.
  intros Hr Hsq. unfold deviation, distance.
  rewrite Hsq, sqrt_square by exact Hr. ring.
Qed.

Lemma corner_arcs_on_circle (x y width height xi radius : R) :
  0 < xi <= 1 -> 0 < radius ->
  let segs := segments (CalculateSmoothRoundRect x y width height xi radius) in
  forall (i : nat) (centre : SkPoint R) (s : Segment R),
    corner_centres x y width height radius !! i = Some centre ->
    segs !! (4 * i + 1)%nat = Some s ->
    on_circle centre radius s.
Proof.
  intros Hxi Hr segs i centre s Hcentre Hs.
  destruct (offsets xi radius Hxi Hr) as (_ & _ & _ & _ & _ & Hcircle).
  unfold segs, CalculateSmoothRoundRect, segments in Hs.
  cbn [moveTo cubicTo arcTo lineTo close app segments_from] in Hs.
  unfold padd, psub, MakeXPoint, MakeYPoint, Make in Hs.
  cbn [fX fY fadd fsub fneg fconst Exact.ops] in Hs.
  set (vx := fX (arc_connecting_vector xi radius)) in *.
  set (vy := fY (arc_connecting_vector xi radius)) in *.
  clearbody vx vy.
  destruct i as [|[|[|[|i]]]]; [..|discriminate Hcentre].
  all: cbn in Hcentre, Hs; injection Hcentre as <-; injection Hs as <-.
  all: split; [reflexivity|].
  all: split; apply deviation_zero; cbn [fX fY]; nra.
Qed.

Lemma corner_deviation_increasing (xi1 xi2 radius : R) :
  0 < xi1 -> xi1 < xi2 -> 0 < radius ->
  corner_deviation xi1 radius < corner_deviation xi2 radius.
Proof.
  intros H1 H12 Hr. unfold corner_deviation.
  apply Rmult_lt_compat_l; [exact Hr|].
  apply Rplus_lt_compat_r, sqrt_lt_1_alt. nra.
Qed.

(** C6, as stated, fails in the arithmetic of the program: the
    smoothness values 2^-30 and 2^-29 pass the checks and are in strict
    order, and with radius 10 both give p = 10, because 1.0f + xi rounds
    to 1.0f. *)
Lemma C6_counterexample :
  let xi1 := Binary32.of_scaled 1 (-30) in
  let xi2 := Binary32.of_scaled 1 (-29) in
  let radius := Binary32.of_Z 10 in
  (forall lm,
     dchecks_pass (H := Binary32.ops lm)
       (Binary32.of_Z 100) (Binary32.of_Z 60) xi1 radius /\
     dchecks_pass (H := Binary32.ops lm)
       (Binary32.of_Z 100) (Binary32.of_Z 60) xi2 radius) /\
  SFltb xi1 xi2 = true /\
  ~ (exists lm,
       let ops := Binary32.ops lm in
       flt (smoothing_rounding_segment_length xi1 radius)
           (smoothing_rounding_segment_length xi2 radius)).
Proof.
  intros xi1 xi2 radius. split; [|split].
  - intros lm. unfold dchecks_pass. repeat split; vm_compute; reflexivity.
  - vm_compute. reflexivity.
  - intros (lm & Hlt). vm_compute in Hlt. discriminate Hlt.
Qed.

(** C6 (amended): in the binary32 arithmetic of the program the smoothing
    segment length p = (1 + xi) * R does not decrease when the smoothness
    grows within (0, 1]; in exact arithmetic it grows strictly, and so
    does R * (sqrt (1 + xi^2) - 1), which is the largest distance by which
    each of the eight corner cubics leaves the circle of its arc, reached
    at the end of the cubic on the edge; the four arcs have their ends on
    those circles. *)
Theorem C6_smoothing_monotone :
  (forall (lm : Binary32.MathLibrary) (xi1 xi2 radius : Binary32.float),
     let ops := Binary32.ops lm in
     Binary32.canonical xi1 -> Binary32.canonical xi2 ->
     Binary32.canonical radius ->
     flt (fconst 0%Z) xi1 -> fle xi1 xi2 -> fle xi2 (fconst 1%Z) ->
     flt (fconst 0%Z) radius ->
     fle (smoothing_rounding_segment_length xi1 radius)
         (smoothing_rounding_segment_length xi2 radius)) /\
  (forall xi1 xi2 radius : R,
     0 < xi1 -> xi1 < xi2 -> xi2 <= 1 -> 0 < radius ->
     smoothing_rounding_segment_length xi1 radius
     < smoothing_rounding_segment_length xi2 radius /\
     corner_deviation xi1 radius < corner_deviation xi2 radius) /\
  (forall x y width height xi radius : R,
     0 < xi <= 1 -> 0 < radius ->
     forall (i : nat) (centre : SkPoint R) (s : Segment R),
       corner_centres x y width height radius !! i = Some centre ->
       segments (CalculateSmoothRoundRect x y width height xi radius)
         !! (4 * i)%nat = Some s \/
       segments (CalculateSmoothRoundRect x y width height xi radius)
         !! (4 * i + 2)%nat = Some s ->
       max_deviation centre radius s (corner_deviation xi radius)) /\
  (forall x y width height xi radius : R,
     0 < xi <= 1 -> 0 < radius ->
     forall (i : nat) (centre : SkPoint R) (s : Segment R),
       corner_centres x y width height radius !! i = Some centre ->
       segments (CalculateSmoothRoundRect x y width height xi radius)
         !! (4 * i + 1)%nat = Some s ->
       on_circle centre radius s).
Proof.
  split; [|split; [|split]].
  - intros lm xi1 xi2 radius ops Hv1 Hv2 HvR Hpos1 Hle12 Hle2 HposR.
    unfold smoothing_rounding_segment_length, rounding_segment_length.
    exact (Binary32Rounding.smoothing_length_monotone xi1 xi2 radius
             Hv1 Hv2 HvR Hpos1 Hle12 Hle2 HposR).
  - intros xi1 xi2 radius H1 H12 H2 Hr. split.
    + unfold smoothing_rounding_segment_length, rounding_segment_length.
      cbn [fmul fadd fconst Exact.ops]. nra.
    + now apply corner_deviation_increasing.
  - intros x y width height xi radius Hxi Hr i centre s.
    now apply corner_cubics_deviation.
  - intros x y width height xi radius Hxi Hr i centre s.
    now apply corner_arcs_on_circle.
Qed.

(** C6 (amended) on the smoothness values 0.5 and 0.75 with radius 10. *)
Lemma C6_smoothing_monotone_witness :
  (forall lm : Binary32.MathLibrary,
     let ops := Binary32.ops lm in
     fle (smoothing_rounding_segment_length
            (Binary32.of_scaled 1 (-1)) (Binary32.of_Z 10))
         (smoothing_rounding_segment_length
            (Binary32.of_scaled 3 (-2)) (Binary32.of_Z 10))) /\
  smoothing_rounding_segment_length (F := R) (1 / 2) 10
  < smoothing_rounding_segment_length (F := R) (3 / 4) 10.
Proof.
  destruct C6_smoothing_monotone as (Hfloat & Hexact & _ & _). split.
  - intros lm ops.
    apply (Hfloat lm (Binary32.of_scaled 1 (-1)) (Binary32.of_scaled 3 (-2))
             (Binary32.of_Z 10)); vm_compute; reflexivity.
  - apply (Hexact (1 / 2) (3 / 4) 10); lra.
Defined.

(** ** Symmetry of the square case, in exact arithmetic *)

Lemma point_eq {F : Type} (x1 y1 x2 y2 : F) :
  x1 = x2 -> y1 = y2 -> MakePoint x1 y1 = MakePoint x2 y2.
Proof. intros -> ->. reflexivity. Qed.

Lemma line_eq {F : Type} (a1 b1 a2 b2 : SkPoint F) :
  a1 = a2 -> b1 = b2 -> LineSegment a1 b1 = LineSegment a2 b2.
Proof. intros -> ->. reflexivity. Qed.

Lemma cubic_eq {F : Type} (a1 c1 d1 b1 a2 c2 d2 b2 : SkPoint F) :
  a1 = a2 -> c1 = c2 -> d1 = d2 -> b1 = b2 ->
  CubicSegment a1 c1 d1 b1 = CubicSegment a2 c2 d2 b2.
Proof. intros -> -> -> ->. reflexivity. Qed.

Lemma arc_eq {F : Type} (a1 r1 b1 a2 r2 b2 : SkPoint F) (rot : F)
    (size : ArcSize) (dir : SkPathDirection) :
  a1 = a2 -> r1 = r2 -> b1 = b2 ->
  ArcSegment a1 r1 rot size dir b1 = ArcSegment a2 r2 rot size dir b2.
Proof. intros -> -> ->. reflexivity. Qed.

Ltac same_segments :=
  repeat first
    [ reflexivity
    | apply (f_equal2 cons)
    | apply line_eq
    | apply cubic_eq
    | apply arc_eq
    | apply point_eq ].

Lemma quarter_turn_square (x y side smoothness radius : R) :
  let path := CalculateSmoothRoundRect x y side side smoothness radius in
  let centre := Make (x + side / 2) (y + side / 2) in
  quarter_turn_segment centre <$> segments path = rotate 4 (segments path).
Proof.
  intros path centre.
  unfold path, centre, CalculateSmoothRoundRect, segments, rotate.
  cbn [moveTo cubicTo arcTo lineTo close app segments_from fmap list_fmap
       quarter_turn_segment List.length Nat.modulo Nat.divmod snd fst
       drop take Nat.sub].
  unfold quarter_turn, padd, psub, MakeXPoint, MakeYPoint, Make.
  cbn [fX fY fadd fsub fneg fconst Exact.ops].
  same_segments; lra.
Qed.

(** C7 (amended): in exact arithmetic, for every input that passes the
    checks and has width = height, a quarter turn about the centre of the
    rectangle maps the segments the path draws -- the cubics, the arcs, the
    three lines and the closing segment -- onto the same segments, four
    places further in their cycle. *)
Theorem C7_quarter_turn_symmetry (x y width height smoothness radius : R) :
  dchecks_pass width height smoothness radius ->
  width = height ->
  let path := CalculateSmoothRoundRect x y width height smoothness radius in
  let centre := Make (x + width / 2) (y + height / 2) in
  quarter_turn_invariant centre path /\
  quarter_turn_segment centre <$> segments path = rotate 4 (segments path).
Proof.
  intros _ <- path centre.
  pose proof (quarter_turn_square x y width smoothness radius) as Hturn.
  split; [exists 4%nat|]; exact Hturn.
Qed.

(** C7 (amended) on a square of side 100 with radius 10 and smoothness 0.6. *)
Lemma C7_quarter_turn_symmetry_witness :
  dchecks_pass (F := R) 100 100 (3 / 5) 10 /\
  quarter_turn_invariant (Make (0 + 100 / 2) (0 + 100 / 2))
    (CalculateSmoothRoundRect (F := R) 0 0 100 100 (3 / 5) 10).
Proof.
  assert (Hchecks : dchecks_pass (F := R) 100 100 (3 / 5) 10).
  { unfold dchecks_pass; simpl. repeat split; lra. }
  split; [exact Hchecks|].
  exact (proj1 (C7_quarter_turn_symmetry 0 0 100 100 (3 / 5) 10
                  Hchecks eq_refl)).
Defined.

(** ** The square case in binary32 *)

Ltac split_cases j tac :=
  first [ lia | destruct j as [|j]; [ tac | split_cases j tac ] ].

Section NoTurn.
Context {F : Type} `{FloatOps F}.

Lemma kind_quarter_turn (c : SkPoint F) (s : Segment F) :
  segment_kind (quarter_turn_segment c s) = segment_kind s.
Proof. destruct s; reflexivity. Qed.

(** A cycle of segments of these kinds is turned onto itself only by a
    shift of 0, 4, 8 or 12 places, and each of them sends a line onto a
    line: it is enough that the start of one line goes to the wrong
    place. *)
Lemma no_quarter_turn (c : SkPoint F) (l : list (Segment F))
    (a3 b3 a7 b7 a11 b11 a15 b15 : SkPoint F) :
  segment_kind <$> l = square_kinds ->
  l !! 3%nat = Some (LineSegment a3 b3) ->
  l !! 7%nat = Some (LineSegment a7 b7) ->
  l !! 11%nat = Some (LineSegment a11 b11) ->
  l !! 15%nat = Some (LineSegment a15 b15) ->
  quarter_turn c a3 <> a3 ->
  quarter_turn c a7 <> a11 ->
  quarter_turn c a3 <> a11 ->
  quarter_turn c a3 <> a15 ->
  ~ exists k : nat, quarter_turn_segment c <$> l = rotate k l.
Proof.
  intros Hk H3 H7 H11 H15 N0 N4 N8 N12 (k & Hrot).
  assert (Hlen : List.length l = 16%nat).
  { rewrite <- (length_fmap segment_kind), Hk. reflexivity. }
  assert (Hat : forall i, (i < 16)%nat ->
            quarter_turn_segment c <$> l !! i
            = l !! rotate_nat_add (k `mod` 16) i 16).
  { intros i Hi. rewrite <- list_lookup_fmap, Hrot, lookup_rotate_r by lia.
    rewrite Hlen. now rewrite rotate_nat_add_add_mod. }
  assert (Hkind : forall i, (i < 16)%nat ->
            square_kinds !! i
            = square_kinds !! rotate_nat_add (k `mod` 16) i 16).
  { intros i Hi. rewrite <- Hk, !list_lookup_fmap, <- Hat by lia.
    destruct (l !! i); simpl; [|reflexivity].
    now rewrite kind_quarter_turn. }
  pose proof (Nat.mod_upper_bound k 16 ltac:(lia)) as Hj.
  set (j := (k `mod` 16)%nat) in *. clearbody j.
  pose proof (Hkind 1%nat ltac:(lia)) as K1.
  pose proof (Hat 3%nat ltac:(lia)) as L3.
  pose proof (Hat 7%nat ltac:(lia)) as L7.
  rewrite H3 in L3. rewrite H7 in L7.
  split_cases j ltac:(vm_compute in K1; try discriminate K1;
                      vm_compute rotate_nat_add in L3, L7).
  - rewrite H3 in L3. inversion L3. congruence.
  - rewrite H11 in L7. inversion L7. congruence.
  - rewrite H11 in L3. inversion L3. congruence.
  - rewrite H15 in L3. inversion L3. congruence.
Qed.

End NoTurn.

Lemma segments_from_real (lm : Binary32.MathLibrary)
    (start pen : SkPoint Binary32.float) (path : SkPath Binary32.float) :
  segments_from (Binary32.real_point start) (Binary32.real_point pen)
    (Binary32.real_path path)
  = Binary32.real_segment <$> segments_from start pen path.
Proof.
  revert start pen.
  induction path as [|c rest IH]; intros start pen; [reflexivity|].
  destruct c; simpl; rewrite ?IH; reflexivity.
Qed.

Lemma segments_real (lm : Binary32.MathLibrary) (path : SkPath Binary32.float) :
  segments (Binary32.real_path path)
  = Binary32.real_segment <$> segments (H := Binary32.ops lm) path.
Proof.
  unfold segments. rewrite <- (segments_from_real lm).
  unfold Binary32.real_point, Make. simpl. reflexivity.
Qed.

Lemma kind_real (s : Segment Binary32.float) :
  segment_kind (Binary32.real_segment s) = segment_kind s.
Proof. destruct s; reflexivity. Qed.

Ltac eval_to_R :=
  cbv [Binary32.real_point Binary32.to_R fX fY Z.leb Z.compare Z.pow Z.pow_pos
       Pos.iter Z.mul Pos.mul Pos.add Pos.succ Z.opp quarter_turn Make
       fadd fsub Exact.ops] in *.

Ltac eval_floats :=
  change (Binary32.of_Z 0) with (S754_zero false) in *;
  change (Binary32.of_Z 100) with (S754_finite false 13107200 (-17)) in *;
  change (Binary32.of_scaled 10590618 (-19))
    with (S754_finite false 10590618 (-19)) in *;
  change (Binary32.of_scaled 10459546 (-17))
    with (S754_finite false 10459546 (-17)) in *;
  eval_to_R.

(** C7, as stated, fails in the arithmetic of the program.  On the square
    x = 0, y = 0, width = height = 100 with smoothness 1 and radius 10.1f
    (the float 10590618 * 2^-20), p is 20.2f = 10590618 * 2^-19 and the
    subtraction 100 - p rounds to 10459546 * 2^-17: the right edge runs
    from (100, p) to (100, 100 - p rounded), and its quarter turn is not
    the bottom edge, whatever the maths library returns. *)
Lemma C7_counterexample :
  let x := Binary32.of_Z 0 in
  let y := Binary32.of_Z 0 in
  let side := Binary32.of_Z 100 in
  let smoothness := Binary32.of_Z 1 in
  let radius := Binary32.of_scaled 10590618 (-20) in
  (forall lm, dchecks_pass (H := Binary32.ops lm) side side smoothness radius) /\
  ~ (exists lm : Binary32.MathLibrary,
       quarter_turn_invariant
         (Make (Binary32.to_R x + Binary32.to_R side / 2)
               (Binary32.to_R y + Binary32.to_R side / 2))
         (Binary32.real_path
            (CalculateSmoothRoundRect (H := Binary32.ops lm)
               x y side side smoothness radius))).
Proof.
  intros x y side smoothness radius. split.
  - intros lm. unfold dchecks_pass. repeat split; vm_compute; reflexivity.
  - intros (lm & Hturn). revert Hturn. unfold quarter_turn_invariant.
    rewrite (segments_real lm).
    subst x y side. set (S := segments _).
    eapply (no_quarter_turn _ (Binary32.real_segment <$> S)).
    + rewrite <- list_fmap_compose.
      transitivity (segment_kind <$> S).
      * apply list_fmap_ext. intros ? s _. apply kind_real.
      * vm_compute. reflexivity.
    + rewrite list_lookup_fmap.
      replace (S !! 3%nat)
        with (Some (LineSegment
                      (Make (Binary32.of_scaled 10590618 (-19)) (Binary32.of_Z 0))
                      (Make (Binary32.of_scaled 10459546 (-17)) (Binary32.of_Z 0))))
        by (vm_compute; reflexivity).
      reflexivity.
    + rewrite list_lookup_fmap.
      replace (S !! 7%nat)
        with (Some (LineSegment
                      (Make (Binary32.of_Z 100) (Binary32.of_scaled 10590618 (-19)))
                      (Make (Binary32.of_Z 100) (Binary32.of_scaled 10459546 (-17)))))
        by (vm_compute; reflexivity).
      reflexivity.
    + rewrite list_lookup_fmap.
      replace (S !! 11%nat)
        with (Some (LineSegment
                      (Make (Binary32.of_scaled 10459546 (-17)) (Binary32.of_Z 100))
                      (Make (Binary32.of_scaled 10590618 (-19)) (Binary32.of_Z 100))))
        by (vm_compute; reflexivity).
      reflexivity.
    + rewrite list_lookup_fmap.
      replace (S !! 15%nat)
        with (Some (LineSegment
                      (Make (Binary32.of_Z 0) (Binary32.of_scaled 10459546 (-17)))
                      (Make (Binary32.of_Z 0) (Binary32.of_scaled 10590618 (-19)))))
        by (vm_compute; reflexivity).
      reflexivity.
    + intros Heq. eval_floats. injection Heq as Hx Hy. lra.
    + intros Heq. eval_floats. injection Heq as Hx Hy. lra.
    + intros Heq. eval_floats. injection Heq as Hx Hy. lra.
    + intros Heq. eval_floats. injection Heq as Hx Hy. lra.
Qed.

End SmoothRoundRectProofs.

(* ===================================================================== *)
(** * Part V: properties of the [PreloadScript] converters               *)
(* ===================================================================== *)

Module PreloadScriptProofs.
Import PreloadScriptGin.

(** ** The model satisfies the laws *)

Lemma model_laws : GinLaws (H := Model.bindings).
Proof.
  split; simpl.
  - reflexivity.
  - intros k. apply lookup_empty.
  - intros k v d. apply lookup_insert_eq.
  - intros k k' v d Hne. apply lookup_insert_ne. congruence.
  - reflexivity.
  - reflexivity.
Defined.

Section Laws.
Context `{GinBindings}.

(** ** The enumeration converter *)

Lemma ScriptType_ToV8_total (t : ScriptType) :
  ScriptType_ToV8 t
  = Some (StringToV8 (match t with
                      | kWebFrame => "frame"
                      | kServiceWorker => "service-worker"
                      end)).
Proof. destruct t; reflexivity. Qed.

Lemma flat_map_find_other (s : string) :
  s <> "frame"%string -> s <> "service-worker"%string ->
  flat_map_find String.eqb ScriptType_FromV8_Lookup s = None.
Proof.
  intros Hf Hs. simpl.
  destruct (String.eqb_spec s "frame") as [->|_]; [congruence|].
  destruct (String.eqb_spec s "service-worker") as [->|_]; [congruence|].
  reflexivity.
Qed.

Section WithStrings.
Hypothesis string_law : forall s, string_FromV8 (StringToV8 s) = Some s.

Lemma ScriptType_round_trip (t : ScriptType) :
  exists v, ScriptType_ToV8 t = Some v /\ ScriptType_FromV8 v = Some t.
Proof.
  eexists. split; [apply ScriptType_ToV8_total|].
  unfold ScriptType_FromV8, FromV8WithLookup. rewrite string_law.
  destruct t; reflexivity.
Qed.

Lemma ScriptType_FromV8_string (s : string) :
  ScriptType_FromV8 (StringToV8 s)
  = flat_map_find String.eqb ScriptType_FromV8_Lookup s.
Proof. unfold ScriptType_FromV8, FromV8WithLookup. now rewrite string_law. Qed.

End WithStrings.

(** ** Reading the fields of a dictionary *)

Lemma Dictionary_Get_is_Some {T : Type} (from_v8 : Value -> option T)
    (key : string) (options : Dictionary) :
  is_Some (Dictionary_Get from_v8 key options)
  <-> has_convertible from_v8 key options.
Proof.
  unfold Dictionary_Get, has_convertible.
  destruct (Dictionary_GetValue key options) as [value|].
  - split; [intros Hs; exists value; auto|].
    intros (value' & Heq & Hs). now inversion Heq; subst.
  - split; [intros [t Ht]; discriminate|].
    intros (value' & Heq & _). discriminate.
Qed.

Lemma FromV8_not_dictionary (val : Value) (out : PreloadScript) :
  Dictionary_FromV8 val = None ->
  PreloadScript_FromV8 val out = (false, out).
Proof. intros Hd. unfold PreloadScript_FromV8. now rewrite Hd. Qed.

Lemma FromV8_fields (val : Value) (out : PreloadScript) (options : Dictionary)
    (t : ScriptType) (p : FilePath) (i : string) :
  Dictionary_FromV8 val = Some options ->
  Dictionary_Get ScriptType_FromV8 "type" options = Some t ->
  Dictionary_Get FilePath_FromV8 "filePath" options = Some p ->
  Dictionary_Get string_FromV8 "id" options = Some i ->
  PreloadScript_FromV8 val out
  = (true,
     {| id := i; script_type := t; file_path := p;
        deprecated :=
          match Dictionary_Get bool_FromV8 "_deprecated" options with
          | Some d => d
          | None => deprecated out
          end |}).
Proof.
  intros Hd Ht Hp Hi. unfold PreloadScript_FromV8.
  rewrite Hd, Ht, Hp, Hi.
  destruct (Dictionary_Get bool_FromV8 "_deprecated" options); reflexivity.
Qed.

Lemma FromV8_deprecated_kept (val : Value) (out : PreloadScript) :
  (forall options, Dictionary_FromV8 val = Some options ->
     Dictionary_GetValue "_deprecated" options = None) ->
  deprecated (snd (PreloadScript_FromV8 val out)) = deprecated out.
Proof.
  intros Habsent. unfold PreloadScript_FromV8.
  destruct (Dictionary_FromV8 val) as [options|] eqn:Hd; [|reflexivity].
  specialize (Habsent options eq_refl).
  destruct (Dictionary_Get ScriptType_FromV8 "type" options); [|reflexivity].
  destruct (Dictionary_Get FilePath_FromV8 "filePath" options); [|reflexivity].
  destruct (Dictionary_Get string_FromV8 "id" options); [|reflexivity].
  unfold Dictionary_Get at 1. rewrite Habsent. reflexivity.
Qed.

End Laws.

(** ** The claims *)

(** C10: ToV8 maps kWebFrame to the string "frame" and kServiceWorker to
    "service-worker"; FromV8 of either string succeeds with the matching
    value, so FromV8 after ToV8 is the identity on ScriptType; FromV8 of
    any other string fails.  It relies on a V8 string reading back as the
    string it was made from. *)
Theorem C10_script_type_converter `{GinBindings}
    (string_law : forall s, string_FromV8 (StringToV8 s) = Some s) :
  ScriptType_ToV8 kWebFrame = Some (StringToV8 "frame") /\
  ScriptType_ToV8 kServiceWorker = Some (StringToV8 "service-worker") /\
  ScriptType_FromV8 (StringToV8 "frame") = Some kWebFrame /\
  ScriptType_FromV8 (StringToV8 "service-worker") = Some kServiceWorker /\
  (forall t, exists v,
      ScriptType_ToV8 t = Some v /\ ScriptType_FromV8 v = Some t) /\
  (forall s, s <> "frame"%string -> s <> "service-worker"%string ->
      ScriptType_FromV8 (StringToV8 s) = None).
Proof.
  split; [reflexivity|]. split; [reflexivity|].
  split; [now rewrite ScriptType_FromV8_string|].
  split; [now rewrite ScriptType_FromV8_string|].
  split.
  - intros t. now apply ScriptType_round_trip.
  - intros s Hf Hs. rewrite ScriptType_FromV8_string by assumption.
    now apply flat_map_find_other.
Qed.

(** C10 at the model of JavaScript values. *)
Lemma C10_script_type_converter_witness :
  (forall s, string_FromV8 (GinBindings := Model.bindings) (StringToV8 s) = Some s) /\
  ScriptType_FromV8 (H := Model.bindings) (Model.V8String "service-worker")
  = Some kServiceWorker /\
  ScriptType_FromV8 (H := Model.bindings) (Model.V8String "worker") = None.
Proof.
  split; [reflexivity|].
  pose proof (C10_script_type_converter (H := Model.bindings)
                (fun s => eq_refl)) as (_ & _ & _ & Hsw & _ & Hother).
  split; [exact Hsw|].
  apply (Hother "worker"%string); discriminate.
Defined.

(** C9: FromV8 returns true exactly when the value converts to a
    dictionary in which "type", "filePath" and "id" are present with
    values that convert; "_deprecated" plays no part in that, and when the
    dictionary has no "_deprecated" the deprecated field of the output
    keeps the value it had (false for a default-initialised output). *)
Theorem C9_from_v8_success `{GinBindings} (val : Value) (out : PreloadScript) :
  (fst (PreloadScript_FromV8 val out) = true <->
   exists options,
     Dictionary_FromV8 val = Some options /\
     has_convertible ScriptType_FromV8 "type" options /\
     has_convertible FilePath_FromV8 "filePath" options /\
     has_convertible string_FromV8 "id" options) /\
  ((forall options, Dictionary_FromV8 val = Some options ->
      Dictionary_GetValue "_deprecated" options = None) ->
   deprecated (snd (PreloadScript_FromV8 val out)) = deprecated out /\
   (deprecated out = false ->
    deprecated (snd (PreloadScript_FromV8 val out)) = false)).
Proof.
  split.
  - split.
    + unfold PreloadScript_FromV8.
      destruct (Dictionary_FromV8 val) as [options|]; [|discriminate].
      destruct (Dictionary_Get ScriptType_FromV8 "type" options) eqn:Ht;
        [|discriminate].
      destruct (Dictionary_Get FilePath_FromV8 "filePath" options) eqn:Hp;
        [|discriminate].
      destruct (Dictionary_Get string_FromV8 "id" options) eqn:Hi;
        [|discriminate].
      intros _. exists options.
      rewrite <- !Dictionary_Get_is_Some, Ht, Hp, Hi. repeat split; eauto.
    + intros (options & Hd & Ht & Hp & Hi).
      apply Dictionary_Get_is_Some in Ht as [t Ht], Hp as [p Hp], Hi as [i Hi].
      now rewrite (FromV8_fields val out options t p i).
  - intros Habsent.
    pose proof (FromV8_deprecated_kept val out Habsent) as Hkept.
    split; [exact Hkept|]. intros Hfalse. now rewrite Hkept.
Qed.

(** C8: for every PreloadScript [s], ToV8 yields a value from which FromV8
    succeeds and reads back the id, the script type and the file path of
    [s].  ToV8 puts no "_deprecated" in the dictionary, so the deprecated
    field of the result is the one the output had before: false for a
    default-initialised output, whatever [deprecated s] is.  It relies on
    the laws of the binding layer. *)
Theorem C8_round_trip `{GinBindings} (laws : GinLaws) (s out : PreloadScript) :
  exists v,
    PreloadScript_ToV8 s = Some v /\
    (forall options, Dictionary_FromV8 v = Some options ->
       Dictionary_GetValue "_deprecated" options = None) /\
    PreloadScript_FromV8 v out
    = (true, {| id := id s; script_type := script_type s;
                file_path := file_path s; deprecated := deprecated out |}) /\
    (deprecated out = false ->
     deprecated (snd (PreloadScript_FromV8 v out)) = false).
Proof.
  unfold PreloadScript_ToV8, Dictionary_Set, string_ToV8.
  rewrite ScriptType_ToV8_total. simpl.
  set (name := match script_type s with
               | kWebFrame => "frame"%string
               | kServiceWorker => "service-worker"%string
               end).
  set (dict := Dictionary_SetValue "type" (StringToV8 name) _).
  assert (Habsent : Dictionary_GetValue "_deprecated" dict = None).
  { unfold dict. rewrite !get_set_other by discriminate. apply get_new. }
  assert (Hread : PreloadScript_FromV8 (Dictionary_ToV8 dict) out
                  = (true, {| id := id s; script_type := script_type s;
                              file_path := file_path s;
                              deprecated := deprecated out |})).
  { rewrite (FromV8_fields _ out dict (script_type s) (file_path s) (id s)).
    - unfold Dictionary_Get. now rewrite Habsent.
    - apply dictionary_round_trip.
    - unfold Dictionary_Get, dict. rewrite get_set_same.
      rewrite (ScriptType_FromV8_string string_round_trip).
      unfold name. now destruct (script_type s).
    - unfold Dictionary_Get, dict.
      rewrite !get_set_other by discriminate. rewrite get_set_same.
      apply FilePath_round_trip.
    - unfold Dictionary_Get, dict.
      rewrite get_set_other by discriminate. rewrite get_set_same.
      apply string_round_trip. }
  exists (Dictionary_ToV8 dict). split; [reflexivity|]. split.
  - intros options Hd. rewrite dictionary_round_trip in Hd.
    now inversion Hd; subst.
  - split; [exact Hread|]. rewrite Hread. simpl. auto.
Qed.

(** C8 at the model of JavaScript values, for a script whose deprecated
    flag is set and an output whose flag is not. *)
Lemma C8_round_trip_witness :
  let s := Model.script "a" kServiceWorker "/preload.js" true in
  let out := Model.script "" kWebFrame "" false in
  exists v,
    PreloadScript_ToV8 s = Some v /\
    PreloadScript_FromV8 v out
    = (true, Model.script "a" kServiceWorker "/preload.js" false).
Proof.
  intros s out.
  destruct (C8_round_trip (H := Model.bindings) model_laws s out)
    as (v & Hto & _ & Hfrom & _).
  exists v. split; [exact Hto | exact Hfrom].
Defined.

End PreloadScriptProofs.

(* ===================================================================== *)
(** * Part VI: the shape of the smooth corners, in exact arithmetic      *)
(* ===================================================================== *)

Module SmoothCorners.
Import SmoothRoundRect Exact Geometry PathGeometry SmoothRoundRectProofs.
Local Open Scope R_scope.

(** ** The connecting angle *)

Section Trig.
Variable xi : R.
Hypothesis Hxi : 0 < xi <= 1.
Let alpha := arc_connecting_angle xi.

Lemma tan_half_positive : 0 < tan (alpha / 2).
Proof.
  destruct (alpha_range xi Hxi) as [[H0 H1] _]. fold alpha in H0, H1.
  pose proof PI_RGT_0. apply tan_gt_0; lra.
Qed.

Lemma half_angle :
  tan (alpha / 2) * sin alpha = 1 - cos alpha /\
  tan (alpha / 2) * (1 + cos alpha) = sin alpha.
Proof.
  destruct (alpha_range xi Hxi) as [[H0 H1] _]. fold alpha in H0, H1.
  pose proof PI_RGT_0.
  assert (Hch : 0 < cos (alpha / 2)) by (apply cos_gt_0; lra).
  set (h := alpha / 2) in *.
  assert (Hs : sin alpha = 2 * sin h * cos h).
  { replace alpha with (2 * h) by (unfold h; lra). apply sin_2a. }
  assert (Hc1 : cos alpha = 1 - 2 * sin h * sin h).
  { replace alpha with (2 * h) by (unfold h; lra). apply cos_2a_sin. }
  assert (Hc2 : cos alpha = 2 * cos h * cos h - 1).
  { replace alpha with (2 * h) by (unfold h; lra). apply cos_2a_cos. }
  split.
  - rewrite Hs, Hc1. unfold tan. field. lra.
  - rewrite Hs, Hc2. unfold tan. field. lra.
Qed.

Lemma sin_le_cos :
  sin alpha <= cos alpha /\
  (xi < 1 -> sin alpha < cos alpha) /\
  (xi = 1 -> sin alpha = cos alpha).
Proof.
  destruct (alpha_range xi Hxi) as [[H0 H1] _]. fold alpha in H0, H1.
  pose proof PI_RGT_0.
  assert (Hstrict : xi < 1 -> sin alpha < cos alpha).
  { intros Hlt. rewrite <- (sin_shift alpha).
    assert (alpha < PI / 4).
    { unfold alpha, arc_connecting_angle, PI_DIV_4.
      cbn [fmul pi_div_4_as_float Exact.ops]. nra. }
    apply sin_increasing_1; lra. }
  assert (Heq : xi = 1 -> sin alpha = cos alpha).
  { intros ->. unfold alpha, arc_connecting_angle, PI_DIV_4.
    cbn [fmul pi_div_4_as_float Exact.ops]. rewrite Rmult_1_r.
    now rewrite sin_PI4, cos_PI4. }
  split; [|split; assumption].
  destruct (Rle_lt_or_eq_dec xi 1 (proj2 Hxi)) as [Hlt|Heq1].
  - left. now apply Hstrict.
  - right. now apply Heq.
Qed.

End Trig.

(** ** The offsets *)

Ltac expose_segments H :=
  unfold CalculateSmoothRoundRect, segments in H;
  cbn [moveTo cubicTo arcTo lineTo close app segments_from] in H;
  unfold padd, psub, MakeXPoint, MakeYPoint, Make in H;
  cbn [fX fY fadd fsub fneg fconst Exact.ops] in H.

Ltac expose_segments_goal :=
  unfold CalculateSmoothRoundRect, segments;
  cbn [moveTo cubicTo arcTo lineTo close app segments_from];
  unfold padd, psub, MakeXPoint, MakeYPoint, Make;
  cbn [fX fY fadd fsub fneg fconst Exact.ops].

Lemma offsets_values (xi radius : R) :
  let alpha := arc_connecting_angle xi in
  fX (arc_connecting_vector xi radius) = (1 - sin alpha) * radius /\
  fY (arc_connecting_vector xi radius) = (1 - cos alpha) * radius /\
  arc_curve_offset xi radius
  = fX (arc_connecting_vector xi radius) + tan (alpha / 2) * cos alpha * radius /\
  smoothing_rounding_segment_length xi radius = (1 + xi) * radius /\
  edge_curve_offset xi radius
  = smoothing_rounding_segment_length xi radius
    - (smoothing_rounding_segment_length xi radius - arc_curve_offset xi radius)
      * (2 / 3).
Proof. intros alpha. repeat split; reflexivity. Qed.

(** The arc curve offset, by the half-angle formulas. *)
Lemma arc_offset_closed_form (xi radius : R) :
  0 < xi <= 1 ->
  arc_curve_offset xi radius
  = radius * (1 - tan (arc_connecting_angle xi / 2)).
Proof.
  intros Hxi.
  destruct (half_angle xi Hxi) as [T2 T3].
  destruct (offsets_values xi radius) as (Hvx & _ & Ha & _).
  cbv zeta in Hvx, Ha. rewrite Ha, Hvx.
  set (t := tan (arc_connecting_angle xi / 2)) in *.
  set (sa := sin (arc_connecting_angle xi)) in *.
  set (ca := cos (arc_connecting_angle xi)) in *.
  clearbody t sa ca. nra.
Qed.

Lemma offsets_order (xi radius : R) :
  0 < xi <= 1 -> 0 < radius ->
  let p := smoothing_rounding_segment_length xi radius in
  let e := edge_curve_offset xi radius in
  let a := arc_curve_offset xi radius in
  let v := arc_connecting_vector xi radius in
  0 < fX v < a /\ a < radius /\ radius < p /\ a < e < p /\
  0 < fY v <= fX v.
Proof.
  intros Hxi Hr p e a v.
  pose proof (arc_offset_closed_form xi radius Hxi) as Hacf. fold a in Hacf.
  destruct (half_angle xi Hxi) as [T2 T3].
  pose proof (tan_half_positive xi Hxi) as Ht.
  destruct (offsets_values xi radius) as (Hvx & Hvy & Ha & Hp & He).
  cbv zeta in Hvx, Hvy, Ha. fold v in Hvx, Hvy, Ha. fold a in Ha, He.
  fold p in Hp, He. fold e in He.
  destruct (sin_alpha_range xi Hxi) as [Hs0 Hs1].
  destruct (sin_le_cos xi Hxi) as (Hsc & _ & _).
  destruct (alpha_range xi Hxi) as [[H0 H1] H2].
  pose proof PI_RGT_0 as Hpi. pose proof PI_4 as Hpi4.
  set (alpha := arc_connecting_angle xi) in *.
  assert (Hc : 0 < cos alpha) by (apply cos_gt_0; lra).
  assert (Hc1 : cos alpha < 1).
  { assert (0 < sin alpha) by (apply sin_gt_0; lra).
    pose proof (sin2_cos2 alpha) as Hsq. unfold Rsqr in Hsq. nra. }
  assert (Hs : sin alpha < 1).
  { pose proof (sin_lt_x alpha H0). lra. }
  set (t := tan (alpha / 2)) in *. set (sa := sin alpha) in *.
  set (ca := cos alpha) in *. clearbody t sa ca v p e a.
  assert (Htc : 0 < t * ca) by nra.
  split; [split; [rewrite Hvx; nra|rewrite Ha; nra]|].
  split; [nra|]. split; [nra|].
  split; [split; nra|].
  split; [rewrite Hvy; nra|rewrite Hvx, Hvy; nra].
Qed.

Lemma offsets_scale (k xi radius : R) :
  smoothing_rounding_segment_length xi (k * radius)
  = k * smoothing_rounding_segment_length xi radius /\
  edge_curve_offset xi (k * radius) = k * edge_curve_offset xi radius /\
  arc_curve_offset xi (k * radius) = k * arc_curve_offset xi radius /\
  fX (arc_connecting_vector xi (k * radius))
  = k * fX (arc_connecting_vector xi radius) /\
  fY (arc_connecting_vector xi (k * radius))
  = k * fY (arc_connecting_vector xi radius).
Proof.
  unfold edge_curve_offset, arc_curve_offset, arc_curve_offset_from_connecting,
    smoothing_rounding_segment_length, rounding_segment_length,
    arc_connecting_vector, pscale, Make, EDGE_CURVE_POINT_RATIO.
  cbn [fX fY fadd fsub fmul fdiv fconst Exact.ops].
  repeat split; field.
Qed.

(** ** Directions and containment *)

Lemma same_direction_quotient (ux uy vx vy : R) (k : R) :
  0 <= k -> ux = k * vx -> uy = k * vy ->
  same_direction (MakePoint ux uy) (MakePoint vx vy).
Proof.
  intros Hk Hx Hy. exists k. split; [exact Hk|].
  unfold scaled. cbn [fX fY]. now apply point_eq.
Qed.

Lemma quotient_nonneg (n d : R) : 0 <= n -> 0 < d -> 0 <= n / d.
Proof.
  intros Hn Hd. apply Rmult_le_pos; [exact Hn|].
  left. now apply Rinv_0_lt_compat.
Qed.

Lemma line_in_rect (x y width height : R) (a b : SkPoint R) :
  in_rect x y width height a -> in_rect x y width height b ->
  forall t, 0 <= t <= 1 -> in_rect x y width height (line_point a b t).
Proof.
  unfold in_rect, line_point. cbn [fX fY]. intros [Hax Hay] [Hbx Hby] t Ht.
  split; split; nra.
Qed.

Lemma cubic_in_rect (x y width height : R) (a c1 c2 b : SkPoint R) :
  in_rect x y width height a -> in_rect x y width height c1 ->
  in_rect x y width height c2 -> in_rect x y width height b ->
  forall t, 0 <= t <= 1 -> in_rect x y width height (cubic_point a c1 c2 b t).
Proof.
  unfold in_rect, cubic_point. cbn [fX fY].
  intros [Hax Hay] [H1x H1y] [H2x H2y] [Hbx Hby] t Ht.
  split; apply bezier3_between; assumption.
Qed.

(** ** Equal commands *)

Lemma move_eq {F : Type} (a b : SkPoint F) : a = b -> MoveTo a = MoveTo b.
Proof. now intros ->. Qed.

Lemma lineto_eq {F : Type} (a b : SkPoint F) : a = b -> LineTo a = LineTo b.
Proof. now intros ->. Qed.

Lemma cubicto_eq {F : Type} (a1 a2 a3 b1 b2 b3 : SkPoint F) :
  a1 = b1 -> a2 = b2 -> a3 = b3 -> CubicTo a1 a2 a3 = CubicTo b1 b2 b3.
Proof. now intros -> -> ->. Qed.

Lemma arcto_eq {F : Type} (r1 r2 p1 p2 : SkPoint F) (rot : F)
    (size : ArcSize) (dir : SkPathDirection) :
  r1 = r2 -> p1 = p2 -> ArcTo r1 rot size dir p1 = ArcTo r2 rot size dir p2.
Proof. now intros -> ->. Qed.

Ltac same_commands :=
  repeat first
    [ reflexivity
    | apply (f_equal2 cons)
    | apply move_eq
    | apply lineto_eq
    | apply cubicto_eq
    | apply arcto_eq
    | apply point_eq ].

Ltac expose_commands :=
  unfold CalculateSmoothRoundRect;
  cbn [moveTo cubicTo arcTo lineTo close app fmap list_fmap map_command];
  unfold padd, psub, MakeXPoint, MakeYPoint, Make;
  cbn [fX fY fadd fsub fneg fconst Exact.ops].

(** The offsets, as variables with the order between them. *)
Ltac name_offsets xi radius :=
  change (edge_connecting_offset xi radius)
    with (smoothing_rounding_segment_length xi radius);
  set (p := smoothing_rounding_segment_length xi radius) in *;
  set (e := edge_curve_offset xi radius) in *;
  set (a := arc_curve_offset xi radius) in *;
  set (vx := fX (arc_connecting_vector xi radius)) in *;
  set (vy := fY (arc_connecting_vector xi radius)) in *;
  clearbody p e a vx vy.

(** ** Tangency at the joints *)

(** X1: each corner cubic meets its arc along the tangent of the circle.
    For 0 < xi <= 1 and a positive radius, the cubic before the arc of a
    corner ends, and the cubic after it starts, with a control leg that is
    tan (alpha / 2) > 0 times the clockwise normal of the radius drawn from
    the centre of the arc to the joint. *)
Theorem cubics_tangent_to_arcs (x y width height xi radius : R) :
  0 < xi <= 1 -> 0 < radius ->
  let segs := segments (CalculateSmoothRoundRect x y width height xi radius) in
  let k := tan (arc_connecting_angle xi / 2) in
  0 < k /\
  forall (i : nat) (centre : SkPoint R),
    corner_centres x y width height radius !! i = Some centre ->
    (exists s, segs !! (4 * i)%nat = Some s /\ enters_arc centre k s) /\
    (exists s, segs !! (4 * i + 2)%nat = Some s /\ leaves_arc centre k s).
Proof.
  intros Hxi Hr segs k.
  split; [apply (tan_half_positive xi Hxi)|].
  destruct (half_angle xi Hxi) as [T2 T3]. fold k in T2, T3.
  destruct (offsets_values xi radius) as (Hvx & Hvy & Ha & _ & _).
  cbv zeta in Hvx, Hvy, Ha. fold k in Ha.
  intros i centre Hcentre.
  subst segs. expose_segments_goal.
  set (a := arc_curve_offset xi radius) in *.
  set (vx := fX (arc_connecting_vector xi radius)) in *.
  set (vy := fY (arc_connecting_vector xi radius)) in *.
  set (sa := sin (arc_connecting_angle xi)) in *.
  set (ca := cos (arc_connecting_angle xi)) in *.
  clearbody a vx vy sa ca k.
  destruct i as [|[|[|[|i]]]]; [..|discriminate Hcentre].
  all: cbn in Hcentre; injection Hcentre as <-.
  all: split; eexists; (split; [reflexivity|]).
  all: unfold enters_arc, leaves_arc, vector, scaled, clockwise_normal;
       cbn [fX fY]; apply point_eq; subst a vx vy; nra.
Qed.

(** X1 at the upper left corner of the rectangle of the specification
    (width 100, height 60, radius 10) with smoothness 0.6. *)
Lemma cubics_tangent_to_arcs_witness :
  let segs := segments (CalculateSmoothRoundRect (F := R) 0 0 100 60 (3 / 5) 10) in
  exists s,
    segs !! 0%nat = Some s /\
    enters_arc (MakePoint (0 + 10) (0 + 10))
      (tan (arc_connecting_angle (F := R) (3 / 5) / 2)) s.
Proof.
  intros segs.
  destruct (cubics_tangent_to_arcs 0 0 100 60 (3 / 5) 10 ltac:(lra) ltac:(lra))
    as [_ Hcorner].
  destruct (Hcorner 0%nat (MakePoint (0 + 10) (0 + 10)) eq_refl) as [Henter _].
  exact Henter.
Defined.

Ltac along_x n d :=
  apply (same_direction_quotient _ _ _ _ (n / d));
  [ apply quotient_nonneg; lra | field; lra | lra ].

Ltac along_y n d :=
  apply (same_direction_quotient _ _ _ _ (n / d));
  [ apply quotient_nonneg; lra | lra | field; lra ].

(** X2: each straight edge continues the cubics at its two ends.  When
    the rectangle holds two smoothing lengths p in each direction
    (2 p <= width, 2 p <= height), the cubic before an edge ends where the
    edge starts, the cubic after it starts where the edge ends, and the
    control points of both next to the edge lie on the line of the edge,
    behind its start and ahead of its end; the fourth edge is the segment
    that [close] draws and the cubic after it is the first of the path. *)
Theorem edges_tangent_to_cubics (x y width height xi radius : R) :
  0 < xi <= 1 -> 0 < radius ->
  2 * smoothing_rounding_segment_length xi radius <= width ->
  2 * smoothing_rounding_segment_length xi radius <= height ->
  let segs := segments (CalculateSmoothRoundRect x y width height xi radius) in
  forall i : nat, (i < 4)%nat ->
    exists before line after,
      segs !! (4 * i + 2)%nat = Some before /\
      segs !! (4 * i + 3)%nat = Some line /\
      segs !! ((4 * i + 4) mod 16)%nat = Some after /\
      joined_straight before line after.
Proof.
  intros Hxi Hr Hw Hh segs i Hi.
  destruct (offsets_order xi radius Hxi Hr)
    as ([Hvx0 Hvxa] & HaR & HRp & [Hae Hep] & _).
  subst segs. expose_segments_goal. name_offsets xi radius.
  destruct i as [|[|[|[|i]]]]; [..|lia].
  all: do 3 eexists; split; [reflexivity|]; split; [reflexivity|];
       split; [reflexivity|].
  all: unfold joined_straight, vector; cbn [fX fY].
  all: split; [apply point_eq; lra|]; split; [apply point_eq; lra|].
  - repeat split;
      [ along_x (width - 2 * p) (p - e) | along_x (width - 2 * p) (p - a)
      | along_x (width - 2 * p) (p - e) | along_x (width - 2 * p) (p - a) ].
  - repeat split;
      [ along_y (height - 2 * p) (p - e) | along_y (height - 2 * p) (p - a)
      | along_y (height - 2 * p) (p - e) | along_y (height - 2 * p) (p - a) ].
  - repeat split;
      [ along_x (width - 2 * p) (p - e) | along_x (width - 2 * p) (p - a)
      | along_x (width - 2 * p) (p - e) | along_x (width - 2 * p) (p - a) ].
  - repeat split;
      [ along_y (height - 2 * p) (p - e) | along_y (height - 2 * p) (p - a)
      | along_y (height - 2 * p) (p - e) | along_y (height - 2 * p) (p - a) ].
Qed.

(** X2 on the rectangle of the specification with smoothness 1, where
    p = 20: the top edge and the cubics at its ends. *)
Lemma edges_tangent_to_cubics_witness :
  let segs := segments (CalculateSmoothRoundRect (F := R) 0 0 100 60 1 10) in
  exists before line after,
    segs !! 2%nat = Some before /\
    segs !! 3%nat = Some line /\
    segs !! 4%nat = Some after /\
    joined_straight before line after.
Proof.
  intros segs.
  assert (Hp : smoothing_rounding_segment_length (F := R) 1 10 = 20).
  { unfold smoothing_rounding_segment_length, rounding_segment_length.
    cbn [fmul fadd fconst Exact.ops]. lra. }
  apply (edges_tangent_to_cubics 0 0 100 60 1 10 ltac:(lra) ltac:(lra)
           ltac:(rewrite Hp; lra) ltac:(rewrite Hp; lra) 0%nat ltac:(lia)).
Defined.

(** ** The offsets in closed form *)

(** X3: for 0 < xi <= 1 and a positive radius R, with alpha the connecting
    angle, the arc curve offset is R * (1 - tan (alpha / 2)), the edge
    curve offset is (p + 2 * arc_curve_offset) / 3, and the offsets are in
    the order 0 < v.x < arc_curve_offset < R < p and
    arc_curve_offset < edge_curve_offset < p, with 0 < v.y <= v.x for the
    arc connecting vector v. *)
Theorem offsets_closed_form (xi radius : R) :
  0 < xi <= 1 -> 0 < radius ->
  let alpha := arc_connecting_angle xi in
  let p := smoothing_rounding_segment_length xi radius in
  let e := edge_curve_offset xi radius in
  let a := arc_curve_offset xi radius in
  let v := arc_connecting_vector xi radius in
  a = radius * (1 - tan (alpha / 2)) /\
  e = (p + 2 * a) / 3 /\
  0 < fX v < a /\ a < radius /\ radius < p /\ a < e < p /\
  0 < fY v <= fX v.
Proof.
  intros Hxi Hr alpha p e a v.
  split; [exact (arc_offset_closed_form xi radius Hxi)|].
  split; [|exact (offsets_order xi radius Hxi Hr)].
  destruct (offsets_values xi radius) as (_ & _ & _ & _ & He).
  fold p a e in He. rewrite He. field.
Qed.

(** X3 at smoothness 0.6 and radius 10. *)
Lemma offsets_closed_form_witness :
  arc_curve_offset (F := R) (3 / 5) 10 < 10 /\
  10 < smoothing_rounding_segment_length (F := R) (3 / 5) 10.
Proof.
  destruct (offsets_closed_form (3 / 5) 10 ltac:(lra) ltac:(lra))
    as (_ & _ & _ & Ha & Hp & _).
  split; [exact Ha | exact Hp].
Defined.

(** ** The arcs at full smoothness *)

(** X4: for 0 < xi <= 1 and a positive radius, the arc of each corner has
    its two ends at the same point exactly when the smoothness is 1: at
    full smoothness the circular part of the corner is a single point, and
    below it is not. *)
Theorem arcs_vanish_at_one (x y width height xi radius : R) :
  0 < xi <= 1 -> 0 < radius ->
  forall (i : nat) (s : Segment R),
    (i < 4)%nat ->
    segments (CalculateSmoothRoundRect x y width height xi radius)
      !! (4 * i + 1)%nat = Some s ->
    match s with
    | ArcSegment a _ _ _ _ b => a = b <-> xi = 1
    | _ => False
    end.
Proof.
  intros Hxi Hr i s Hi Hs.
  destruct (sin_le_cos xi Hxi) as (_ & Hlt & Heq).
  destruct (offsets_values xi radius) as (Hvx & Hvy & _).
  cbv zeta in Hvx, Hvy.
  expose_segments Hs.
  set (vx := fX (arc_connecting_vector xi radius)) in *.
  set (vy := fY (arc_connecting_vector xi radius)) in *.
  set (sa := sin (arc_connecting_angle xi)) in *.
  set (ca := cos (arc_connecting_angle xi)) in *.
  clearbody vx vy sa ca.
  assert (Hiff : vx = vy <-> xi = 1).
  { split.
    - intros Hv. destruct (Rle_lt_or_eq_dec xi 1 (proj2 Hxi)) as [H1|H1]; [|exact H1].
      specialize (Hlt H1). nra.
    - intros H1. specialize (Heq H1). rewrite Hvx, Hvy, Heq. reflexivity. }
  destruct i as [|[|[|[|i]]]]; [..|lia].
  all: cbn in Hs; injection Hs as <-.
  all: rewrite <- Hiff; split;
       [ intros Hab; injection Hab as H1 H2; lra
       | intros ->; reflexivity ].
Qed.

(** X4 at smoothness 1: the arc of the upper left corner of the rectangle
    of the specification starts and ends at the same point. *)
Lemma arcs_vanish_at_one_witness :
  exists a r rot size dir,
    segments (CalculateSmoothRoundRect (F := R) 0 0 100 60 1 10) !! 1%nat
    = Some (ArcSegment a r rot size dir a).
Proof.
  pose proof (arcs_vanish_at_one 0 0 100 60 1 10 ltac:(lra) ltac:(lra) 0%nat) as Harc.
  destruct (segments (CalculateSmoothRoundRect (F := R) 0 0 100 60 1 10) !! 1%nat)
    as [s|] eqn:Hs; [|discriminate Hs].
  specialize (Harc s ltac:(lia) Hs).
  destruct s as [| |a r rot size dir b]; try contradiction.
  destruct Harc as [_ Hsame]. rewrite <- (Hsame eq_refl).
  exists a, r, rot, size, dir. reflexivity.
Defined.

(** ** The straight edges *)

(** X5: for every input, the four straight segments of the drawing (three
    lines and the segment [close] adds) run along the sides in clockwise
    order with the signed lengths width - 2 p (top), height - 2 p (right),
    -(width - 2 p) (bottom) and -(height - 2 p) (left), p being the
    smoothing segment length: an edge shrinks to a point when the side is
    2 p, and runs backwards when the side is shorter. *)
Theorem edge_lengths (x y width height xi radius : R) :
  let segs := segments (CalculateSmoothRoundRect x y width height xi radius) in
  let p := smoothing_rounding_segment_length xi radius in
  segs !! 3%nat ≫= line_vector = Some (MakePoint (width - 2 * p) 0) /\
  segs !! 7%nat ≫= line_vector = Some (MakePoint 0 (height - 2 * p)) /\
  segs !! 11%nat ≫= line_vector = Some (MakePoint (- (width - 2 * p)) 0) /\
  segs !! 15%nat ≫= line_vector = Some (MakePoint 0 (- (height - 2 * p))).
Proof.
  intros segs p. subst segs. expose_segments_goal.
  change (edge_connecting_offset xi radius) with p. clearbody p.
  cbn [lookup list_lookup mbind option_bind line_vector].
  unfold vector; cbn [fX fY].
  repeat split; f_equal; apply point_eq; lra.
Qed.

(** ** The path stays in its rectangle *)

(** X6: for 0 < xi <= 1 and a positive radius, when the smoothing segment
    length p is at most the width and the height, the drawing lies in
    the rectangle [x, x + width] x [y, y + height]: every point of each
    line and of each cubic, the control points of the cubics, and the ends
    of the arcs. *)
Theorem path_inside_rectangle (x y width height xi radius : R) :
  0 < xi <= 1 -> 0 < radius ->
  smoothing_rounding_segment_length xi radius <= width ->
  smoothing_rounding_segment_length xi radius <= height ->
  Forall (segment_in_rect x y width height)
    (segments (CalculateSmoothRoundRect x y width height xi radius)).
Proof.
  intros Hxi Hr Hw Hh.
  destruct (offsets_order xi radius Hxi Hr)
    as ([Hvx0 Hvxa] & HaR & HRp & [Hae Hep] & [Hvy0 Hvyx]).
  expose_segments_goal. name_offsets xi radius.
  repeat (apply List.Forall_cons); try apply List.Forall_nil.
  all: unfold segment_in_rect.
  all: repeat match goal with
       | |- _ /\ _ => split
       | |- forall t, _ -> in_rect _ _ _ _ (cubic_point _ _ _ _ _) =>
           apply cubic_in_rect
       | |- forall t, _ -> in_rect _ _ _ _ (line_point _ _ _) =>
           apply line_in_rect
       end.
  all: unfold in_rect; cbn [fX fY]; lra.
Qed.

(** X6 on the rectangle of the specification with smoothness 1: the
    middle of the first cubic is in the rectangle. *)
Lemma path_inside_rectangle_witness :
  exists a c1 c2 b,
    segments (CalculateSmoothRoundRect (F := R) 0 0 100 60 1 10) !! 0%nat
    = Some (CubicSegment a c1 c2 b) /\
    in_rect 0 0 100 60 (cubic_point a c1 c2 b (1 / 2)).
Proof.
  assert (Hp : smoothing_rounding_segment_length (F := R) 1 10 = 20).
  { unfold smoothing_rounding_segment_length, rounding_segment_length.
    cbn [fmul fadd fconst Exact.ops]. lra. }
  pose proof (path_inside_rectangle 0 0 100 60 1 10 ltac:(lra) ltac:(lra)
                ltac:(rewrite Hp; lra) ltac:(rewrite Hp; lra)) as Hall.
  apply List.Forall_inv in Hall.
  do 4 eexists. split; [reflexivity|].
  destruct Hall as (_ & _ & Hcurve). apply Hcurve. lra.
Defined.

(** ** Symmetries *)

(** X7: for every input, also when width and height differ, a half turn
    about the centre of the rectangle maps the segments of the drawing
    onto the same segments, eight places further in their cycle. *)
Theorem half_turn_symmetry (x y width height smoothness radius : R) :
  let path := CalculateSmoothRoundRect x y width height smoothness radius in
  let centre := Make (x + width / 2) (y + height / 2) in
  quarter_turn_segment centre <$> (quarter_turn_segment centre <$> segments path)
  = rotate 8 (segments path).
Proof.
  intros path centre.
  unfold path, centre, CalculateSmoothRoundRect, segments, rotate.
  cbn [moveTo cubicTo arcTo lineTo close app segments_from fmap list_fmap
       quarter_turn_segment List.length Nat.modulo Nat.divmod snd fst
       drop take Nat.sub].
  unfold quarter_turn, padd, psub, MakeXPoint, MakeYPoint, Make.
  cbn [fX fY fadd fsub fneg fconst Exact.ops].
  same_segments; lra.
Qed.

(** X8: for every input, the reflection in the vertical line through the
    centre of the rectangle maps the drawing onto itself traversed
    backwards: the mirrored segments, each reversed and taken in reverse
    order, are the segments of the drawing seven places further in their
    cycle, the arcs clockwise again. *)
Theorem mirror_symmetry (x y width height smoothness radius : R) :
  let segs := segments (CalculateSmoothRoundRect x y width height smoothness radius) in
  reverse_segments (mirror_segment (x + width / 2) <$> segs) = rotate 7 segs.
Proof.
  intros segs. subst segs.
  unfold reverse_segments, CalculateSmoothRoundRect, segments, rotate.
  cbn [moveTo cubicTo arcTo lineTo close app segments_from fmap list_fmap
       mirror_segment reverse_segment List.length Nat.modulo Nat.divmod snd fst
       drop take Nat.sub flip].
  unfold reverse. cbn [rev_append].
  unfold mirror, padd, psub, MakeXPoint, MakeYPoint, Make.
  cbn [fX fY fadd fsub fneg fconst Exact.ops].
  same_segments; lra.
Qed.

(** ** The pattern of the commands *)

(** X20: in any arithmetic and for every input, the sixteen segments of
    the drawing are, corner after corner, a cubic, an arc, a cubic and a
    straight segment, and each of the four arc commands asks for a
    circular arc of radii (radius, radius), not rotated, the small one,
    clockwise. *)
Theorem corner_pattern {F : Type} `{FloatOps F}
    (x y width height smoothness radius : F) :
  let path := CalculateSmoothRoundRect x y width height smoothness radius in
  segment_kind <$> segments path = square_kinds /\
  Forall (is_corner_arc radius) path.
Proof.
  intros path. split; [reflexivity|].
  unfold path, CalculateSmoothRoundRect.
  cbn [moveTo cubicTo arcTo lineTo close app].
  repeat (apply List.Forall_cons); try apply List.Forall_nil.
  all: cbn [is_corner_arc]; auto.
Qed.

(** ** Translation and scaling *)

(** X9: moving the corner (x, y) by (dx, dy) moves every point of the
    path by (dx, dy) and changes nothing else. *)
Theorem translation_covariant (x y width height smoothness radius dx dy : R) :
  CalculateSmoothRoundRect (x + dx) (y + dy) width height smoothness radius
  = translate dx dy
      (CalculateSmoothRoundRect x y width height smoothness radius).
Proof.
  unfold translate. expose_commands. same_commands; lra.
Qed.

(** X10: multiplying x, y, width, height and radius by k, at the same
    smoothness, multiplies every point of the path and the radii of its
    arcs by k. *)
Theorem scaling_covariant (k x y width height smoothness radius : R) :
  CalculateSmoothRoundRect (k * x) (k * y) (k * width) (k * height)
    smoothness (k * radius)
  = scale k (CalculateSmoothRoundRect x y width height smoothness radius).
Proof.
  destruct (offsets_scale k smoothness radius) as (Hp & He & Ha & Hvx & Hvy).
  unfold scale. expose_commands.
  change (edge_connecting_offset smoothness (k * radius))
    with (smoothing_rounding_segment_length smoothness (k * radius)).
  change (edge_connecting_offset smoothness radius)
    with (smoothing_rounding_segment_length smoothness radius).
  rewrite Hp, He, Ha, Hvx, Hvy.
  same_commands; lra.
Qed.

End SmoothCorners.

(* ===================================================================== *)
(** * Part VII: the checks and the smoothing length in binary32          *)
(* ===================================================================== *)

Module Binary32Lengths.
Import SmoothRoundRect Binary32 Binary32Values Binary32Rounding.
Local Open Scope Z_scope.

(** [1.0f + xi] has a mantissa of 24 bits at the exponent of 1. *)
Lemma sum_bounds (m : positive) (e : Z) :
  e <= -23 -> Zpos m <= 2 ^ (- e) ->
  2 ^ 23 <= rne (2 ^ (- e) + Zpos m) (-23 - e) <= 2 ^ 24.
Proof.
  intros He Hm.
  pose proof (Z.pow_pos_nonneg 2 (- e) ltac:(lia) ltac:(lia)) as Hp.
  pose proof (Z.pow_pos_nonneg 2 (-23 - e) ltac:(lia) ltac:(lia)) as Hpn.
  assert (Hsplit : 2 ^ (- e) = 2 ^ 23 * 2 ^ (-23 - e)).
  { rewrite <- Z.pow_add_r by lia. f_equal. lia. }
  split.
  - pose proof (rne_bounds (2 ^ (- e) + Zpos m) (-23 - e) ltac:(lia) ltac:(lia))
      as [Hlb _].
    assert (2 ^ 23 <= (2 ^ (- e) + Zpos m) / 2 ^ (-23 - e)); [|lia].
    apply Z.div_le_lower_bound; lia.
  - replace (2 ^ 24) with (rne (2 ^ (- e) + 2 ^ (- e)) (-23 - e)).
    + apply rne_mono; lia.
    + replace (2 ^ (- e) + 2 ^ (- e)) with (2 ^ (-23 - e) * 2 ^ 24).
      * rewrite <- (Z.add_0_l (-23 - e)) at 2. rewrite rne_scale by lia.
        apply rne_exact.
      * rewrite Hsplit. change (2 ^ 24) with (2 * 2 ^ 23). lia.
Qed.

(** A canonical positive float is the rounding of its own value. *)
Lemma rounded_canonical (m : positive) (e : Z) :
  valid_binary 24 128 (S754_finite false m e) = true ->
  rounded (Zpos m) e = S754_finite false m e.
Proof.
  intros Hv. apply valid_finite in Hv as [Hc He].
  unfold rounded. rewrite Hc, Z.sub_diag, rne_exact. unfold finish.
  pose proof (Z.log2_spec (Zpos m) ltac:(lia)) as [_ Hhi].
  assert (Hm : Zpos m < 2 ^ 24).
  { eapply Z.lt_le_trans; [exact Hhi|].
    apply Z.pow_le_mono_r; unfold E_of in Hc; lia. }
  destruct (Z.eqb_spec (Zpos m) 0) as [|_]; [lia|].
  destruct (Z.eqb_spec (Zpos m) (2 ^ 24)) as [|_]; [lia|].
  destruct (Z.leb_spec e 104) as [_|]; [|lia].
  reflexivity.
Qed.

Lemma positive_float_ltb (f : float) :
  SFltb zero f = true <-> positive_float f.
Proof.
  unfold positive_float. split.
  - destruct f as [[]|[]| |[] m e]; try discriminate; eauto.
  - intros [->|(m & e & ->)]; reflexivity.
Qed.

Lemma leb_positive (a b : float) :
  positive_float a -> SFleb a b = true -> positive_float b.
Proof.
  unfold positive_float.
  intros [->|(m & e & ->)] Hle; destruct b as [[]|[]| |[] m' e'];
    try discriminate Hle; eauto.
Qed.

Lemma leb_infinity (a : float) :
  positive_float a -> SFleb a (S754_infinity false) = true.
Proof. intros [->|(m & e & ->)]; reflexivity. Qed.

(** The product [(1.0f + xi) * radius] under the checks. *)
Lemma length_rounded (xi : float) (mR : positive) (eR : Z) :
  valid_binary 24 128 xi = true ->
  SFltb zero xi = true -> SFleb xi one = true ->
  exists r, 2 ^ 23 <= r <= 2 ^ 24 /\
    SFmul 24 128 (SFadd 24 128 one xi) (S754_finite false mR eR)
    = rounded (r * Zpos mR) (eR - 23).
Proof.
  intros Hv Hpos Hle.
  destruct (smoothness_shape xi Hv Hpos Hle) as (m & e & -> & He & Hm).
  rewrite (add_one m e Hv He Hm).
  pose proof (sum_bounds m e He Hm) as Hb.
  eexists. split; [exact Hb|]. now apply mul_finish.
Qed.

Lemma length_infinite (xi : float) :
  valid_binary 24 128 xi = true ->
  SFltb zero xi = true -> SFleb xi one = true ->
  SFmul 24 128 (SFadd 24 128 one xi) (S754_infinity false) = S754_infinity false.
Proof.
  intros Hv Hpos Hle.
  destruct (smoothness_shape xi Hv Hpos Hle) as (m & e & -> & He & Hm).
  rewrite (add_one m e Hv He Hm).
  destruct (finish_shape _ (sum_bounds m e He Hm)) as (a & b & ->). reflexivity.
Qed.

(** [radius <= (1.0f + xi) * radius] *)
Lemma radius_le_length (xi radius : float) :
  valid_binary 24 128 xi = true ->
  valid_binary 24 128 radius = true ->
  SFltb zero xi = true -> SFleb xi one = true ->
  SFltb zero radius = true ->
  SFleb radius (SFmul 24 128 (SFadd 24 128 one xi) radius) = true.
Proof.
  intros Hv HvR Hpos Hle HposR.
  apply positive_float_ltb in HposR as [->|(mR & eR & ->)].
  - now rewrite length_infinite.
  - destruct (length_rounded xi mR eR Hv Hpos Hle) as (r & Hr & ->).
    rewrite <- (rounded_canonical mR eR HvR) at 1.
    pose proof (valid_finite _ _ _ HvR) as [Hc _].
    rewrite <- (rounded_scale (Zpos mR) eR 23) by lia.
    change (2 ^ 23) with 8388608 in *.
    apply rounded_mono; try (apply shift_ok; change (2 ^ 23) with 8388608; nia).
    nia.
Qed.

(** [(1.0f + xi) * radius] does not decrease when the radius grows. *)
Lemma length_mono_radius (xi radius1 radius2 : float) :
  valid_binary 24 128 xi = true ->
  valid_binary 24 128 radius1 = true ->
  valid_binary 24 128 radius2 = true ->
  SFltb zero xi = true -> SFleb xi one = true ->
  SFltb zero radius1 = true -> SFleb radius1 radius2 = true ->
  SFleb (SFmul 24 128 (SFadd 24 128 one xi) radius1)
        (SFmul 24 128 (SFadd 24 128 one xi) radius2) = true.
Proof.
  intros Hv Hv1 Hv2 Hpos Hle Hpos1 Hle12.
  pose proof (proj1 (positive_float_ltb radius1) Hpos1) as P1.
  pose proof (leb_positive _ _ P1 Hle12) as P2.
  pose proof (radius_le_length xi radius1 Hv Hv1 Hpos Hle Hpos1) as Hp1.
  pose proof (leb_positive _ _ P1 Hp1) as Pp1.
  destruct P2 as [->|(m2 & e2 & ->)].
  - rewrite (length_infinite xi) by assumption. now apply leb_infinity.
  - destruct P1 as [->|(m1 & e1 & ->)]; [discriminate Hle12|].
    destruct (smoothness_order m1 m2 e1 e2 Hv1 Hv2 Hle12) as [He Hm].
    destruct (smoothness_shape xi Hv Hpos Hle) as (m & e & -> & Hexp & Hman).
    rewrite (add_one m e Hv Hexp Hman).
    pose proof (sum_bounds m e Hexp Hman) as Hb.
    set (r := rne (2 ^ (- e) + Zpos m) (-23 - e)) in *.
    rewrite !mul_finish by assumption.
    pose proof (Z.pow_pos_nonneg 2 (e2 - e1) ltac:(lia) ltac:(lia)) as Hpk.
    change (2 ^ 23) with 8388608 in *.
    rewrite <- (rounded_scale (r * Zpos m2) (e2 - 23) (e2 - e1))
      by (try apply shift_ok; change (2 ^ 23) with 8388608; nia).
    replace (e2 - 23 - (e2 - e1)) with (e1 - 23) by lia.
    apply rounded_mono; try (apply shift_ok; change (2 ^ 23) with 8388608; nia).
    nia.
Qed.

(** ** The smoothing length and the radius *)

(** X11: in binary32, for a smoothness and a radius that pass their
    checks, the smoothing segment length p = (1.0f + xi) * R compares
    above 0.0f (it is neither NaN nor zero), is at least the radius, and
    does not decrease when the radius grows; an infinite radius is
    included. *)
Theorem smoothing_length_bounds_radius
    (lm : MathLibrary) (xi radius radius' : float) :
  let ops := Binary32.ops lm in
  canonical xi -> canonical radius -> canonical radius' ->
  flt (fconst 0%Z) xi -> fle xi (fconst 1%Z) -> flt (fconst 0%Z) radius ->
  flt (fconst 0%Z) (smoothing_rounding_segment_length xi radius) /\
  fle radius (smoothing_rounding_segment_length xi radius) /\
  (fle radius radius' ->
   fle (smoothing_rounding_segment_length xi radius)
       (smoothing_rounding_segment_length xi radius')).
Proof.
  intros ops Hv HvR HvR' Hpos Hle HposR.
  unfold smoothing_rounding_segment_length, rounding_segment_length.
  pose proof (radius_le_length xi radius Hv HvR Hpos Hle HposR) as Hge.
  split; [|split].
  - apply positive_float_ltb. apply (leb_positive radius); [|exact Hge].
    now apply positive_float_ltb.
  - exact Hge.
  - intros Hrr. now apply length_mono_radius.
Qed.

(** X11 on the smoothness 2^-30 with radius 10, where p is the radius,
    and on the radii 10 and 20 at smoothness 1. *)
Lemma smoothing_length_bounds_radius_witness :
  (forall lm : MathLibrary,
     let ops := Binary32.ops lm in
     fle (of_Z 10) (smoothing_rounding_segment_length (of_scaled 1 (-30)) (of_Z 10))) /\
  (forall lm : MathLibrary,
     let ops := Binary32.ops lm in
     fle (smoothing_rounding_segment_length (of_Z 1) (of_Z 10))
         (smoothing_rounding_segment_length (of_Z 1) (of_Z 20))).
Proof.
  split; intros lm ops.
  - apply (smoothing_length_bounds_radius lm (of_scaled 1 (-30)) (of_Z 10) (of_Z 20));
      vm_compute; reflexivity.
  - apply (smoothing_length_bounds_radius lm (of_Z 1) (of_Z 10) (of_Z 20));
      vm_compute; reflexivity.
Defined.

(** ** The checks *)

(** X12: in binary32 the five checks pass exactly when width, height and
    radius are positive finite numbers or +infinity and the smoothness is
    a positive finite number not above 1.0f: NaN, zeros, negative numbers
    and -infinity are refused everywhere, +infinity is refused for the
    smoothness only. *)
Theorem dchecks_binary32 (lm : MathLibrary)
    (width height smoothness radius : float) :
  let ops := Binary32.ops lm in
  dchecks_pass width height smoothness radius <->
  positive_float width /\ positive_float height /\
  (exists m e, smoothness = S754_finite false m e /\
               SFleb smoothness one = true) /\
  positive_float radius.
Proof.
  intros ops. unfold dchecks_pass.
  change (flt (fconst 0%Z)) with (fun f => SFltb zero f = true).
  change (fle smoothness (fconst 1%Z)) with (SFleb smoothness one = true).
  cbv beta. rewrite !positive_float_ltb.
  split.
  - intros (Hw & Hh & Hs & Hle & Hr). repeat split; try assumption.
    destruct Hs as [->|(m & e & ->)]; [discriminate Hle|]. eauto.
  - intros (Hw & Hh & (m & e & -> & Hle) & Hr). repeat split; try assumption.
    right; eauto.
Qed.

(** ** The calls to the maths library *)

(** X13: the path depends on the maths library through three calls only:
    sin and cos at the connecting angle and tan at half of it.  Two
    libraries that agree there give the same path, bit for bit. *)
Theorem maths_library_calls (lm1 lm2 : MathLibrary)
    (x y width height smoothness radius : float) :
  let alpha := arc_connecting_angle (H := ops lm1) smoothness in
  lib_sin lm1 alpha = lib_sin lm2 alpha ->
  lib_cos lm1 alpha = lib_cos lm2 alpha ->
  lib_tan lm1 (SFdiv prec emax alpha (of_Z 2))
  = lib_tan lm2 (SFdiv prec emax alpha (of_Z 2)) ->
  CalculateSmoothRoundRect (H := ops lm1) x y width height smoothness radius
  = CalculateSmoothRoundRect (H := ops lm2) x y width height smoothness radius.
Proof.
  intros alpha Hsin Hcos Htan.
  unfold CalculateSmoothRoundRect, edge_connecting_offset, edge_curve_offset,
    arc_curve_offset, arc_curve_offset_from_connecting, arc_connecting_vector,
    smoothing_rounding_segment_length, rounding_segment_length, pscale,
    EDGE_CURVE_POINT_RATIO, padd, psub, MakeXPoint, MakeYPoint, Make.
  cbn [fX fY fadd fsub fmul fdiv fneg fconst fsin fcos ftan ops].
  change (arc_connecting_angle (H := ops lm2) smoothness) with alpha.
  fold alpha.
  rewrite Hsin, Hcos, Htan. reflexivity.
Qed.

(** X13 on two libraries that differ at 5.0f, for the scenario of the
    specification. *)
Lemma maths_library_calls_witness :
  lib_sin identity_library (of_Z 5) <> lib_sin other_library (of_Z 5) /\
  CalculateSmoothRoundRect (H := ops identity_library)
    (of_Z 0) (of_Z 0) (of_Z 100) (of_Z 60) (of_Z 1) (of_Z 10)
  = CalculateSmoothRoundRect (H := ops other_library)
      (of_Z 0) (of_Z 0) (of_Z 100) (of_Z 60) (of_Z 1) (of_Z 10).
Proof.
  split; [vm_compute; discriminate|].
  apply (maths_library_calls identity_library other_library);
    vm_compute; reflexivity.
Defined.

End Binary32Lengths.

(* ===================================================================== *)
(** * Part VIII: what the converters write and read                      *)
(* ===================================================================== *)

Module PreloadScriptObject.
Import PreloadScriptGin PreloadScriptNames PreloadScriptProofs.
Local Open Scope string_scope.

Section Object.
Context `{GinBindings}.

(** The dictionary [ToV8] builds. *)
Lemma ToV8_dictionary (s : PreloadScript) :
  PreloadScript_ToV8 s
  = Some (Dictionary_ToV8
            (Dictionary_SetValue "type" (StringToV8 (type_name (script_type s)))
               (Dictionary_SetValue "id" (StringToV8 (id s))
                  (Dictionary_SetValue "filePath"
                     (StringToV8 (AsUTF8Unsafe (file_path s))) Dictionary_New)))).
Proof.
  unfold PreloadScript_ToV8, Dictionary_Set, string_ToV8.
  rewrite ScriptType_ToV8_total. reflexivity.
Qed.

Lemma ToV8_then_FromV8 (laws : GinLaws) (s out : PreloadScript) :
  exists v, PreloadScript_ToV8 s = Some v /\
    PreloadScript_FromV8 v out
    = (true, {| id := id s; script_type := script_type s;
                file_path := file_path s; deprecated := deprecated out |}).
Proof.
  eexists. split; [apply ToV8_dictionary|].
  set (dict := Dictionary_SetValue "type" _ _).
  rewrite (FromV8_fields _ out dict (script_type s) (file_path s) (id s)).
  - unfold Dictionary_Get, dict.
    rewrite !get_set_other by discriminate. now rewrite get_new.
  - apply dictionary_round_trip.
  - unfold Dictionary_Get, dict. rewrite get_set_same.
    rewrite (ScriptType_FromV8_string string_round_trip).
    now destruct (script_type s).
  - unfold Dictionary_Get, dict.
    rewrite !get_set_other by discriminate. rewrite get_set_same.
    apply FilePath_round_trip.
  - unfold Dictionary_Get, dict.
    rewrite get_set_other by discriminate. rewrite get_set_same.
    apply string_round_trip.
Qed.

End Object.

(** ** The object [ToV8] returns *)

(** X14: ToV8 never stops on the failed CHECK of the table lookup.  The
    object it returns has the keys "filePath", "id" and "type", holding
    the path as UTF-8 text, the id and the name of the script type, and
    no other key; the deprecated flag of the script takes no part.  It
    relies on the laws of the binding layer. *)
Theorem ToV8_three_keys `{GinBindings} (laws : GinLaws) (s : PreloadScript) :
  exists dict,
    PreloadScript_ToV8 s = Some (Dictionary_ToV8 dict) /\
    Dictionary_GetValue "filePath" dict
    = Some (StringToV8 (AsUTF8Unsafe (file_path s))) /\
    Dictionary_GetValue "id" dict = Some (StringToV8 (id s)) /\
    Dictionary_GetValue "type" dict
    = Some (StringToV8 (type_name (script_type s))) /\
    (forall key, key <> "filePath" -> key <> "id" -> key <> "type" ->
       Dictionary_GetValue key dict = None) /\
    (forall b, PreloadScript_ToV8 (with_deprecated b s)
               = Some (Dictionary_ToV8 dict)).
Proof.
  eexists. split; [apply ToV8_dictionary|].
  split; [now rewrite !get_set_other, get_set_same by discriminate|].
  split; [now rewrite !get_set_other, get_set_same by discriminate|].
  split; [now rewrite get_set_same|].
  split.
  - intros key Hp Hi Ht. rewrite !get_set_other by assumption. apply get_new.
  - intros b. apply (ToV8_dictionary (with_deprecated b s)).
Qed.

(** X14 at the model of JavaScript values, for a script whose deprecated
    flag is set. *)
Lemma ToV8_three_keys_witness :
  exists dict,
    PreloadScript_ToV8 (Model.script "a" kServiceWorker "/preload.js" true)
    = Some (Model.V8Object dict) /\
    dict !! "type" = Some (Model.V8String "service-worker") /\
    dict !! "_deprecated" = None.
Proof.
  destruct (ToV8_three_keys (H := Model.bindings) model_laws
              (Model.script "a" kServiceWorker "/preload.js" true))
    as (dict & Hv & _ & _ & Ht & Hother & _).
  exists dict. split; [exact Hv|]. split; [exact Ht|].
  apply Hother; discriminate.
Defined.

(** X15: two scripts give the same V8 value exactly when they have the
    same id, script type and file path, whatever their deprecated flags.
    It relies on the laws of the binding layer. *)
Theorem ToV8_injective `{GinBindings} (laws : GinLaws) (s1 s2 : PreloadScript) :
  PreloadScript_ToV8 s1 = PreloadScript_ToV8 s2 <->
  id s1 = id s2 /\ script_type s1 = script_type s2 /\ file_path s1 = file_path s2.
Proof.
  split.
  - intros Heq.
    destruct (ToV8_then_FromV8 laws s1 s1) as (v1 & Hv1 & Hf1).
    destruct (ToV8_then_FromV8 laws s2 s1) as (v2 & Hv2 & Hf2).
    rewrite Heq, Hv2 in Hv1. injection Hv1 as <-.
    rewrite Hf2 in Hf1. injection Hf1 as Hi Ht Hp. auto.
  - intros (Hi & Ht & Hp). rewrite !ToV8_dictionary, Hi, Ht, Hp. reflexivity.
Qed.

(** X15 at the model: the deprecated flag does not show, the id does. *)
Lemma ToV8_injective_witness :
  PreloadScript_ToV8 (Model.script "a" kWebFrame "/p.js" true)
  = PreloadScript_ToV8 (Model.script "a" kWebFrame "/p.js" false) /\
  PreloadScript_ToV8 (Model.script "a" kWebFrame "/p.js" true)
  <> PreloadScript_ToV8 (Model.script "b" kWebFrame "/p.js" true).
Proof.
  split.
  - apply (ToV8_injective (H := Model.bindings) model_laws). repeat split.
  - intros Heq.
    apply (ToV8_injective (H := Model.bindings) model_laws) in Heq as (Hi & _).
    discriminate Hi.
Defined.

(** ** What [FromV8] leaves in its output *)

(** X16: when FromV8 returns false it has written the fields it had read
    before the one that failed: the output is untouched, or holds the
    script type of the dictionary (no convertible "filePath"), or its
    script type and file path (no convertible "id"); the id and the
    deprecated flag are the ones the output had. *)
Theorem FromV8_failure_writes `{GinBindings} (val : Value) (out : PreloadScript) :
  fst (PreloadScript_FromV8 val out) = false ->
  let out' := snd (PreloadScript_FromV8 val out) in
  id out' = id out /\ deprecated out' = deprecated out /\
  (out' = out \/
   exists options t,
     Dictionary_FromV8 val = Some options /\
     Dictionary_Get ScriptType_FromV8 "type" options = Some t /\
     ((Dictionary_Get FilePath_FromV8 "filePath" options = None /\
       out' = with_script_type t out) \/
      exists p,
        Dictionary_Get FilePath_FromV8 "filePath" options = Some p /\
        Dictionary_Get string_FromV8 "id" options = None /\
        out' = with_file_path p (with_script_type t out))).
Proof.
  unfold PreloadScript_FromV8.
  destruct (Dictionary_FromV8 val) as [options|]; [|cbn; auto].
  destruct (Dictionary_Get ScriptType_FromV8 "type" options) as [t|] eqn:Ht;
    [|cbn; auto].
  destruct (Dictionary_Get FilePath_FromV8 "filePath" options) as [p|] eqn:Hp.
  - destruct (Dictionary_Get string_FromV8 "id" options) as [i|] eqn:Hi;
      [discriminate|].
    cbn. intros _. split; [reflexivity|]. split; [reflexivity|].
    right. exists options, t. split; [reflexivity|]. split; [exact Ht|].
    right. exists p. rewrite Hp. auto.
  - cbn. intros _. split; [reflexivity|]. split; [reflexivity|].
    right. exists options, t. split; [reflexivity|]. split; [exact Ht|].
    left. rewrite Hp. auto.
Qed.

(** X16 at the model: an object with a "type" and no "filePath" fails the
    conversion and changes the script type of the output. *)
Lemma FromV8_failure_writes_witness :
  let val := Model.V8Object {[ "type" := Model.V8String "frame" ]} in
  let out := Model.script "x" kServiceWorker "/old.js" true in
  PreloadScript_FromV8 (H := Model.bindings) val out
  = (false, Model.script "x" kWebFrame "/old.js" true) /\
  id (snd (PreloadScript_FromV8 (H := Model.bindings) val out)) = "x".
Proof.
  intros val out. split; [reflexivity|].
  apply (FromV8_failure_writes (H := Model.bindings) val out). reflexivity.
Defined.

(** X17: FromV8 reads the dictionary at the keys "type", "filePath", "id"
    and "_deprecated" only: two values whose dictionaries agree at these
    four keys convert alike, result and output. *)
Theorem FromV8_four_keys `{GinBindings} (val1 val2 : Value)
    (options1 options2 : Dictionary) (out : PreloadScript) :
  Dictionary_FromV8 val1 = Some options1 ->
  Dictionary_FromV8 val2 = Some options2 ->
  (forall key, In key ["type"; "filePath"; "id"; "_deprecated"] ->
     Dictionary_GetValue key options1 = Dictionary_GetValue key options2) ->
  PreloadScript_FromV8 val1 out = PreloadScript_FromV8 val2 out.
Proof.
  intros H1 H2 Hsame. unfold PreloadScript_FromV8, Dictionary_Get.
  rewrite H1, H2.
  rewrite !Hsame by (cbn; auto 6). reflexivity.
Qed.

(** X17 at the model: a key the converter does not know changes nothing. *)
Lemma FromV8_four_keys_witness :
  let d : gmap string Model.v8_value :=
    {[ "type" := Model.V8String "frame"; "filePath" := Model.V8String "/p.js";
       "id" := Model.V8String "a" ]} in
  let out := Model.script "" kWebFrame "" false in
  PreloadScript_FromV8 (H := Model.bindings)
    (Model.V8Object (<["extra" := Model.V8Number 7]> d)) out
  = PreloadScript_FromV8 (H := Model.bindings) (Model.V8Object d) out.
Proof.
  intros d out.
  apply (FromV8_four_keys (H := Model.bindings) _ _
           (<["extra" := Model.V8Number 7]> d) d out); try reflexivity.
  intros key Hin. cbn in Hin.
  destruct Hin as [<-|[<-|[<-|[<-|[]]]]]; reflexivity.
Defined.

(** X18: whether FromV8 succeeds does not depend on the output it is
    given; on success the id, script type and file path it leaves do not
    either, and the whole output does not when the two outputs had the
    same deprecated flag; converting the same value once more into the
    output of a conversion changes nothing. *)
Theorem FromV8_output_independent `{GinBindings}
    (val : Value) (out1 out2 : PreloadScript) :
  let r1 := PreloadScript_FromV8 val out1 in
  let r2 := PreloadScript_FromV8 val out2 in
  fst r1 = fst r2 /\
  (fst r1 = true ->
   id (snd r1) = id (snd r2) /\
   script_type (snd r1) = script_type (snd r2) /\
   file_path (snd r1) = file_path (snd r2) /\
   (deprecated out1 = deprecated out2 -> snd r1 = snd r2)) /\
  PreloadScript_FromV8 val (snd r1) = r1.
Proof.
  unfold PreloadScript_FromV8.
  destruct (Dictionary_FromV8 val) as [options|];
    [|cbn; repeat split; discriminate].
  destruct (Dictionary_Get ScriptType_FromV8 "type" options) as [t|];
    [|cbn; repeat split; discriminate].
  destruct (Dictionary_Get FilePath_FromV8 "filePath" options) as [p|];
    [|cbn; repeat split; discriminate].
  destruct (Dictionary_Get string_FromV8 "id" options) as [i|];
    [|cbn; repeat split; discriminate].
  destruct (Dictionary_Get bool_FromV8 "_deprecated" options) as [d|];
    cbn; (split; [reflexivity|]); (split; [|reflexivity]); intros _;
    repeat (split; [reflexivity|]); [reflexivity|].
  unfold with_deprecated, with_id, with_file_path, with_script_type. cbn.
  intros ->. reflexivity.
Qed.

(** ** The two tables of the script type converter *)

(** X19: the table of ToV8 and the table of FromV8 are inverse to each
    other, and ToV8 after a successful FromV8 gives a V8 string of the
    text the value converted to. *)
Theorem ScriptType_tables_inverse `{GinBindings} :
  (forall t s,
     flat_map_at ScriptType_eqb ScriptType_ToV8_Lookup t = Some s <->
     flat_map_find String.eqb ScriptType_FromV8_Lookup s = Some t) /\
  (forall val t,
     ScriptType_FromV8 val = Some t ->
     exists s, string_FromV8 val = Some s /\
               ScriptType_ToV8 t = Some (StringToV8 s)).
Proof.
  assert (Htab : forall t s,
     flat_map_at ScriptType_eqb ScriptType_ToV8_Lookup t = Some s <->
     flat_map_find String.eqb ScriptType_FromV8_Lookup s = Some t).
  { intros t s. unfold flat_map_at.
    cbn [flat_map_find ScriptType_ToV8_Lookup ScriptType_FromV8_Lookup].
    destruct (String.eqb_spec s "frame") as [->|Hf].
    - destruct t; cbn; split; congruence.
    - destruct (String.eqb_spec s "service-worker") as [->|Hs].
      + destruct t; cbn; split; congruence.
      + destruct t; cbn; split; congruence. }
  split; [exact Htab|].
  intros val t. unfold ScriptType_FromV8, FromV8WithLookup, ScriptType_ToV8.
  destruct (string_FromV8 val) as [s|]; [|discriminate].
  intros Hfind. apply Htab in Hfind. rewrite Hfind. eauto.
Qed.

End PreloadScriptObject.
